(** * icryptix/core: block validation, interlink update and peer addresses

    A shallow embedding of [Block] (verify, isSuccessorOf, nextInterlink,
    the genesis constant) and of [NetAddress] (serialize, unserialize,
    serializedSize, equals), followed by the properties that the
    specification states about them.

    Conventions.
    - A JavaScript number that holds an integer is a [Z]; the fractional
      targets [Math.pow(2, k)] with [k < 0] are rationals ([Q]). Not every
      integer is a number: [Js.is_number] tells which ones are.
    - A string is held as the sequence of its UTF-8 bytes; its [length], in
      UTF-16 code units, is [Js.string_length].
    - Fixed-width opaque identifiers ([Hash], [Address], [PublicKey]) are
      the integer that their bytes encode, most significant byte first.
    - A method that can throw returns a [result]; a method that works on a
      [SerialBuffer] threads the buffer, which survives a throw with the
      bytes written so far.
    - A [while] loop whose exit the source does not bound takes fuel and
      returns [None] when the fuel runs out. *)

From Stdlib Require Import ZArith QArith Qpower Lia List String Ascii.
From stdpp Require Import gmap strings list pretty.

Local Open Scope Z_scope.

(** ** JavaScript values: exceptions, arrays, promises, strings, numbers *)

Module Js.

Inductive error : Type :=
| ReferenceError (name : string)   (* an identifier with no binding *)
| Truncated                        (* a reader ran past the end *)
| InvalidUtf8                      (* VarLenString bytes are not UTF-8 *)
| Malformed (what : string)        (* a value does not fit its encoding *)
| TypeError (property : string).   (* a call of a property that is no function *)

Inductive result (A : Type) : Type :=
| Ok (a : A)
| Throw (e : error).

Arguments Ok {A} a.
Arguments Throw {A} e.

Definition is_ok {A} (r : result A) : bool :=
  match r with Ok _ => true | Throw _ => false end.

(** [x[i]] on an array: [undefined] (here [None]) outside [0 .. length-1]. *)
Definition index {A} (l : list (option A)) (i : Z) : option A :=
  if (0 <=? i) then mjoin (l !! Z.to_nat i) else None.

(** What a call of an [async] method evaluates to: a promise, which settles
    later with what the body of the method computes (given enough fuel,
    where the body loops). Only [await] turns it into that value. *)
Inductive Promise (A : Type) : Type :=
| promise (body : nat -> option A).

Arguments promise {A} body.

(** [p.name(...)] on a promise [p], for a [name] other than [then], [catch]
    and [finally]: a promise has no such property, and the call of
    [undefined] throws a TypeError. The body of [p] plays no part. *)
Definition call_on_promise {A R} (p : Promise A) (name : string) : result R :=
  Throw (TypeError name).

(** The UTF-16 code units that the character starting with the byte [c]
    takes: one for a character of one, two or three bytes, two (a surrogate
    pair) for a character of four bytes; a continuation byte starts no
    character. *)
Definition units (c : ascii) : nat :=
  let b := Z.of_N (N_of_ascii c) in
  if b <? 128 then 1%nat
  else if b <? 192 then 0%nat
  else if b <? 240 then 1%nat
  else 2%nat.

(** [s.length]: the number of UTF-16 code units of the string, counted on
    its UTF-8 bytes. *)
Definition string_length (s : string) : nat :=
  list_sum (map units (list_ascii_of_string s)).

(** A string of ASCII characters only: one byte and one code unit each. *)
Definition is_ascii (s : string) : bool :=
  forallb (fun c => Z.of_N (N_of_ascii c) <? 128) (list_ascii_of_string s).

(** The integers that a number can hold: those that 53 significant bits
    write down (below the largest double, [2^1024]). *)
Definition is_number (n : Z) : bool :=
  let e := Z.log2 (Z.abs n) - 52 in
  (Z.abs n <? 2 ^ 1024) && ((e <=? 0) || (Z.abs n mod 2 ^ e =? 0)).

(** The number that an integer literal denotes (below [2^1024] in absolute
    value): the nearest integer that 53 bits write down, the even one of two
    that are equally near. *)
Definition nearest (n : Z) : Z :=
  let a := Z.abs n in
  let e := Z.log2 a - 52 in
  if e <=? 0 then n
  else
    let q := a / 2 ^ e in
    let r := a mod 2 ^ e in
    let half := 2 ^ (e - 1) in
    let q := if r <? half then q
             else if half <? r then q + 1
             else if Z.even q then q else q + 1 in
    Z.sgn n * (q * 2 ^ e).

(** The digits with which a number [m] is printed: the integer with the
    fewest significant digits that denotes [m], and the one nearest to [m]
    if there are several. From the multiples of [10^j] down to those of 1,
    the two multiples around [m] are tried. *)
Fixpoint shortest_from (j : nat) (m : Z) : Z :=
  match j with
  | O => m
  | S j' =>
      let p := 10 ^ Z.of_nat j in
      let lo := m / p * p in
      let hi := lo + p in
      if (nearest lo =? m) && (nearest hi =? m)
      then (if m - lo <=? hi - m then lo else hi)
      else if nearest lo =? m then lo
      else if nearest hi =? m then hi
      else shortest_from j' m
  end.

(** For a number below [10^21] in absolute value. *)
Definition shortest (m : Z) : Z := shortest_from 21 m.

End Js.

(** ** SerialBuffer *)

Module SerialBuffer.
Import Js.

(** Modelled from the spec: the class SerialBuffer is not among the
    sources. "A cursor over a contiguous byte buffer with independent read
    and write positions. Offers big-endian encoders/decoders for u8, u16,
    u32, u64, raw fixed-length byte blocks, and VarLenString (1 byte length
    N in [0,255], then N UTF-8 bytes). All readers fail with Truncated if
    remaining bytes are insufficient; VarLenString additionally fails with
    InvalidUtf8."  The spec leaves two writer cases open; here a write that
    does not fit the allocated bytes, and a string longer than 255 bytes,
    both throw [Malformed]. *)
Record t : Type := mk {
  bytes : list Z;
  readPos : nat;
  writePos : nat
}.

(** [new SerialBuffer(n)] *)
Definition new (n : Z) : t :=
  {| bytes := repeat 0 (Z.to_nat n); readPos := 0; writePos := 0 |}.

(** A computation on a buffer: the buffer is an object shared with the
    caller, so the state is returned on a throw as well. *)
Definition M (A : Type) : Type := t -> result A * t.

Definition ret {A} (a : A) : M A := fun s => (Ok a, s).
Definition throw {A} (e : error) : M A := fun s => (Throw e, s).
Definition bind {A B} (m : M A) (f : A -> M B) : M B :=
  fun s => match m s with
           | (Ok a, s') => f a s'
           | (Throw e, s') => (Throw e, s')
           end.

(** Big-endian bytes of the [n]-byte unsigned value [v mod 256^n]. *)
Fixpoint be_bytes (n : nat) (v : Z) : list Z :=
  match n with
  | O => []
  | S k => (v / 256 ^ Z.of_nat k) mod 256 :: be_bytes k v
  end.

Definition be_value (bs : list Z) : Z :=
  fold_left (fun acc b => acc * 256 + b) bs 0.

Definition write (data : list Z) : M unit :=
  fun s =>
    if (writePos s + length data <=? length (bytes s))%nat
    then (Ok tt,
          {| bytes := take (writePos s) (bytes s) ++ data
                      ++ drop (writePos s + length data) (bytes s);
             readPos := readPos s;
             writePos := (writePos s + length data)%nat |})
    else (Throw (Malformed "write past the end"), s).

Definition read (n : nat) : M (list Z) :=
  fun s =>
    if (readPos s + n <=? length (bytes s))%nat
    then (Ok (take n (drop (readPos s) (bytes s))),
          {| bytes := bytes s;
             readPos := (readPos s + n)%nat;
             writePos := writePos s |})
    else (Throw Truncated, s).

Definition writeUint8 (v : Z) : M unit := write (be_bytes 1 v).
Definition writeUint16 (v : Z) : M unit := write (be_bytes 2 v).
Definition writeUint32 (v : Z) : M unit := write (be_bytes 4 v).
Definition writeUint64 (v : Z) : M unit := write (be_bytes 8 v).

Definition readUint8 : M Z := bind (read 1) (fun bs => ret (be_value bs)).
Definition readUint16 : M Z := bind (read 2) (fun bs => ret (be_value bs)).
Definition readUint32 : M Z := bind (read 4) (fun bs => ret (be_value bs)).
Definition readUint64 : M Z := bind (read 8) (fun bs => ret (be_value bs)).

(** A string is held as the sequence of its UTF-8 bytes, one [ascii] per
    byte, so that [String.length] is the byte count of the wire form. That
    is not its [length] in the source, which [Js.string_length] gives; the
    two agree on strings in ASCII. *)
Definition string_bytes (s : string) : list Z :=
  map (fun c => Z.of_N (N_of_ascii c)) (list_ascii_of_string s).

Definition bytes_string (bs : list Z) : string :=
  string_of_list_ascii (map (fun b => ascii_of_N (Z.to_N b)) bs).

(** Well-formed UTF-8 (RFC 3629): [need] continuation bytes are still
    expected and the next one must lie in [lo .. hi]. *)
Fixpoint utf8_from (need : nat) (lo hi : Z) (bs : list Z) : bool :=
  match bs with
  | [] => match need with O => true | S _ => false end
  | b :: rest =>
      match need with
      | S k => (lo <=? b) && (b <=? hi) && utf8_from k 128 191 rest
      | O =>
          if b <=? 127 then utf8_from 0 128 191 rest
          else if (194 <=? b) && (b <=? 223) then utf8_from 1 128 191 rest
          else if b =? 224 then utf8_from 2 160 191 rest
          else if b =? 237 then utf8_from 2 128 159 rest
          else if (225 <=? b) && (b <=? 239) then utf8_from 2 128 191 rest
          else if b =? 240 then utf8_from 3 144 191 rest
          else if (241 <=? b) && (b <=? 243) then utf8_from 3 128 191 rest
          else if b =? 244 then utf8_from 3 128 143 rest
          else false
      end
  end.

Definition utf8_valid (bs : list Z) : bool := utf8_from 0 128 191 bs.

Definition writeVarLenString (s : string) : M unit :=
  if (String.length s <=? 255)%nat
  then bind (writeUint8 (Z.of_nat (String.length s)))
            (fun _ => write (string_bytes s))
  else throw (Malformed "VarLenString longer than 255 bytes").

Definition readVarLenString : M string :=
  bind readUint8 (fun n =>
  bind (read (Z.to_nat n)) (fun bs =>
  if utf8_valid bs then ret (bytes_string bs) else throw InvalidUtf8)).

End SerialBuffer.

#[global] Instance SerialBuffer_ret : MRet SerialBuffer.M := @SerialBuffer.ret.
#[global] Instance SerialBuffer_bind : MBind SerialBuffer.M :=
  fun A B f m => SerialBuffer.bind m f.

(** ** NetAddress (src/main/generic/network/struct/NetAddress.js) *)

Module NetAddress.
Import Js.

Record t : Type := mk {
  services : Z;
  timestamp : Z;
  host : string;
  port : Z;
  signalId : Z
}.

(** The two identifiers that NetAddress.js uses without declaring them
    ([ipAddress] in [unserialize], [signalId] in [serialize]), as the
    enclosing scope resolves them. [None]: no binding, and the reference
    throws a ReferenceError. *)
Record Scope : Type := {
  global_ipAddress : option string;
  global_signalId : option Z
}.

(** No file of the repository declares either name. *)
Definition repository_scope : Scope :=
  {| global_ipAddress := None; global_signalId := None |}.

Definition resolve {A} (name : string) (binding : option A) : SerialBuffer.M A :=
  match binding with
  | Some v => mret v
  | None => SerialBuffer.throw (ReferenceError name)
  end.

(** [static unserialize(buf)] *)
Definition unserialize (sc : Scope) : SerialBuffer.M t :=
  services ← SerialBuffer.readUint32;
  timestamp ← SerialBuffer.readUint64;
  host ← SerialBuffer.readVarLenString;
  port ← SerialBuffer.readUint16;
  signalId ← SerialBuffer.readUint32;
  ipAddress ← resolve "ipAddress" (global_ipAddress sc);
  mret (mk services timestamp ipAddress port signalId).

(** [get serializedSize()] *)
Definition serializedSize (a : t) : Z :=
  (*services*) 4
  + (*timestamp*) 8
  + (*extra byte VarLenString host*) 1
  + Z.of_nat (Js.string_length (host a))
  + (*port*) 2
  + (*signalId*) 4.

(** [serialize(buf)], with [buf = buf || new SerialBuffer(this.serializedSize)].
    The second component is the buffer that the method returns, or, when it
    throws, the buffer as the writes before the throw left it. *)
Definition serialize (sc : Scope) (buf : option SerialBuffer.t) (a : t)
  : result unit * SerialBuffer.t :=
  let buf := default (SerialBuffer.new (serializedSize a)) buf in
  (SerialBuffer.writeUint32 (services a);;
   SerialBuffer.writeUint64 (timestamp a);;
   SerialBuffer.writeVarLenString (host a);;
   SerialBuffer.writeUint16 (port a);;
   signalId ← resolve "signalId" (global_signalId sc);
   SerialBuffer.writeUint32 signalId) buf.

(** The argument of [equals(o)]: any value; only [instanceof NetAddress]
    matters. *)
Inductive value : Type :=
| Instance (a : t)
| Other.

(** [equals(o)] *)
Definition equals (this : t) (o : value) : bool :=
  match o with
  | Instance o =>
      (services this =? services o)
      && String.eqb (host this) (host o)
      && (port this =? port o)
      && (signalId this =? signalId o)
  | Other => false
  end.

(** [NetAddress.unserialize(a.serialize())] *)
Definition roundtrip (sc : Scope) (a : t) : result t :=
  match serialize sc None a with
  | (Ok _, buf) => fst (unserialize sc buf)
  | (Throw e, _) => Throw e
  end.

End NetAddress.


(** ** Primitives that Block.js uses *)

Module BufferUtils.

(** Modelled from the spec: BufferUtils.fromBase64 is not among the sources;
    the spec names it only as the "base64 I/O" of the primitives. This is
    the decoding of RFC 4648, padding optional. *)
Definition base64_digit (c : ascii) : option Z :=
  let n := Z.of_N (N_of_ascii c) in
  if (65 <=? n) && (n <=? 90) then Some (n - 65)
  else if (97 <=? n) && (n <=? 122) then Some (n - 71)
  else if (48 <=? n) && (n <=? 57) then Some (n + 4)
  else if n =? 43 then Some 62
  else if n =? 47 then Some 63
  else None.

Fixpoint base64_digits (cs : list ascii) : option (list Z) :=
  match cs with
  | [] => Some []
  | c :: rest =>
      if Ascii.eqb c "="%char
      then (if forallb (Ascii.eqb "="%char) rest then Some [] else None)
      else match base64_digit c, base64_digits rest with
           | Some d, Some ds => Some (d :: ds)
           | _, _ => None
           end
  end.

Definition fromBase64 (s : string) : option (list Z) :=
  match base64_digits (list_ascii_of_string s) with
  | Some ds =>
      let nbits := 6 * Z.of_nat (length ds) in
      let v := fold_left (fun acc d => acc * 64 + d) ds 0 in
      Some (SerialBuffer.be_bytes (Z.to_nat (nbits / 8))
                                  (Z.shiftr v (nbits mod 8)))
  | None => None
  end.

End BufferUtils.

Module Hash.

(** Modelled from the spec: "Fixed 32-byte opaque value. Equality is
    byte-wise. A distinguished null hash (all-zero) exists for genesis
    predecessors." The value is the integer the 32 bytes encode. *)
Definition t : Type := Z.

Definition SERIALIZED_SIZE : Z := 32.

Definition equals (a b : t) : bool := a =? b.

(** [new Hash(null)] *)
Definition null : t := 0.

(** [new Hash(bytes)]; a constant whose text does not decode is [null]. *)
Definition of_bytes (bs : option (list Z)) : t :=
  match bs with
  | Some bs => SerialBuffer.be_value bs
  | None => null
  end.

Definition fromBase64 (s : string) : t := of_bytes (BufferUtils.fromBase64 s).

End Hash.

Module Address.

(** Modelled from the spec: "Fixed 20-byte value derived from a public key;
    equality is byte-wise." *)
Definition t : Type := Z.

Definition equals (a b : t) : bool := a =? b.

Definition of_bytes (bs : option (list Z)) : t :=
  match bs with
  | Some bs => SerialBuffer.be_value bs
  | None => 0
  end.

End Address.

Module Transaction.

(** Modelled from the spec: "Carries at least senderPubKey, recipientAddr,
    and a signature." A public key is the integer its bytes encode; used as
    the index of an object it selects one property per key. *)
Definition PublicKey : Type := Z.

Record t : Type := mk {
  senderPubKey : PublicKey;
  recipientAddr : Address.t;
  signature : Z
}.

End Transaction.

Module BlockHeader.

(** Modelled from the spec: "Immutable tuple: prevHash, interlinkHash,
    bodyHash, accountsHash, nBits: u32, height: u32, timestamp: u32,
    nonce: u32", in the order of the constructor's arguments. *)
Record t : Type := mk {
  prevHash : Hash.t;
  interlinkHash : Hash.t;
  bodyHash : Hash.t;
  accountsHash : Hash.t;
  nBits : Z;
  height : Z;
  timestamp : Z;
  nonce : Z
}.

End BlockHeader.

Module BlockInterlink.

(** [new BlockInterlink(hashes)]: the array of hashes. A slot of a
    JavaScript array can hold [undefined], written [None]. *)
Record t : Type := mk {
  hashes : list (option Hash.t)
}.

(** [get length()] *)
Definition length (il : t) : Z := Z.of_nat (List.length (hashes il)).

End BlockInterlink.

Module BlockBody.

Record t : Type := mk {
  minerAddr : Address.t;
  transactions : list Transaction.t
}.

End BlockBody.

Module BlockUtils.

(** Modelled from the spec: "BlockUtils.getTargetHeight(target) =
    ceil(log2(target))". This is the height of a target of at least 1; the
    policy bounds targets, and the logarithm of a smaller one is no integer. *)
Definition getTargetHeight (target : Z) : Z := Z.log2_up target.

(** Modelled from the spec: "isProofOfWork(hash, T) <-> hash_as_int <= T".
    The target is a number, not always an integer: nextInterlink passes
    [Math.pow(2, k)] for negative [k] as well. *)
Definition isProofOfWork (hash : Hash.t) (target : Q) : bool :=
  Qle_bool (inject_Z hash) target.

End BlockUtils.

Module Math.

(** [Math.pow(2, k)] for an integer [k]. *)
Definition pow2 (k : Z) : Q := Qpower (2 # 1) k.

End Math.

(** ** What Block.js takes from the rest of the node

    The hash functions, the sizes of the parts, the transaction contract, the
    compact encoding of targets and the policy constant are defined outside
    the sources at hand. Block.js is embedded over any choice of them. *)
Record Env : Type := {
  BLOCK_SIZE_MAX : Z;                                  (* Policy.BLOCK_SIZE_MAX *)
  header_hash : BlockHeader.t -> Hash.t;               (* BlockHeader.hash() *)
  header_serializedSize : BlockHeader.t -> Z;
  interlink_hash : BlockInterlink.t -> Hash.t;         (* BlockInterlink.hash() *)
  interlink_serializedSize : BlockInterlink.t -> Z;
  body_hash : BlockBody.t -> Hash.t;                   (* BlockBody.hash() *)
  body_serializedSize : BlockBody.t -> Z;
  getSenderAddr : Transaction.t -> Address.t;          (* tx.getSenderAddr() *)
  verifySignature : Transaction.t -> bool;             (* tx.verifySignature() *)
  compactToTarget : Z -> Z;                            (* BlockUtils.compactToTarget *)
  difficultyToCompact : Z -> Z                         (* BlockUtils.difficultyToCompact *)
}.

(** ** Loops *)

(** [for (let i = lo; i < hi; i++) s = body(i, s)], by recursion on the
    number of rounds left; [for_range] starts it with [hi - lo] rounds, which
    is every round the guard lets through. *)
Fixpoint for_loop {St : Type} (rounds : nat) (i hi : Z)
                  (body : Z -> St -> St) (s : St) : St :=
  match rounds with
  | O => s
  | S rounds' =>
      if i <? hi then for_loop rounds' (i + 1) hi body (body i s) else s
  end.

Definition for_range {St : Type} (lo hi : Z) (body : Z -> St -> St) (s : St) : St :=
  for_loop (Z.to_nat (hi - lo)) lo hi body s.

(** ** Block (Block.js) *)

Module Block.
Import Js.

(** The constructor's [instanceof] tests are the types of the fields. *)
Record t : Type := mk {
  header : BlockHeader.t;
  interlink : BlockInterlink.t;
  body : BlockBody.t
}.

Section WithEnv.
Variable E : Env.

(** [get target()], that is [this._header.target]: the expansion of nBits. *)
Definition target (b : t) : Z := compactToTarget E (BlockHeader.nBits (header b)).

(** [hash()], that is [this._header.hash()]. *)
Definition hash (b : t) : Hash.t := header_hash E (header b).

(** [get serializedSize()] *)
Definition serializedSize (b : t) : Z :=
  header_serializedSize E (header b)
  + interlink_serializedSize E (interlink b)
  + body_serializedSize E (body b).

(** Modelled from the spec: BlockHeader.verifyProofOfWork "computes the
    header hash, expands nBits to a 256-bit target, and returns whether the
    hash, read big-endian, is numerically <= target". *)
Definition verifyProofOfWork (hd : BlockHeader.t) : bool :=
  BlockUtils.isProofOfWork (header_hash E hd)
                           (inject_Z (compactToTarget E (BlockHeader.nBits hd))).

(** [senderPubKeys[key]] as a condition: the property is set and true. *)
Definition seen (senderPubKeys : gmap Transaction.PublicKey bool)
                (key : Transaction.PublicKey) : bool :=
  default false (senderPubKeys !! key).

(** The first loop of [verify], from an object [senderPubKeys] on. *)
Fixpoint verify_senders (senderPubKeys : gmap Transaction.PublicKey bool)
                        (txs : list Transaction.t) : bool :=
  match txs with
  | [] => true
  | tx :: rest =>
      (* Check that there is only one transaction per sender. *)
      if seen senderPubKeys (Transaction.senderPubKey tx) then false
      else
        let senderPubKeys := <[Transaction.senderPubKey tx := true]> senderPubKeys in
        (* Check that there are no transactions to oneself. *)
        let txSenderAddr := getSenderAddr E tx in
        if Address.equals (Transaction.recipientAddr tx) txSenderAddr then false
        else verify_senders senderPubKeys rest
  end.

(** The last loop of [verify]. *)
Fixpoint verify_signatures (txs : list Transaction.t) : bool :=
  match txs with
  | [] => true
  | tx :: rest =>
      if negb (verifySignature E tx) then false else verify_signatures rest
  end.

(** [async verify()]. The warnings that it logs before each [return false]
    are left out; [Log] and the classes that tag them belong to the node. *)
Definition verify (b : t) : bool :=
  (* Check that the maximum block size is not exceeded. *)
  if serializedSize b >? BLOCK_SIZE_MAX E then false
  else if negb (verify_senders ∅ (BlockBody.transactions (body b))) then false
  (* Check that the headerHash matches the difficulty. *)
  else if negb (verifyProofOfWork (header b)) then false
  (* Check that bodyHash given in the header matches the actual bodyHash. *)
  else
    let bodyHash := body_hash E (body b) in
    if negb (Hash.equals (BlockHeader.bodyHash (header b)) bodyHash) then false
    (* Check that the interlinkHash given in the header matches the actual one. *)
    else
      let interlinkHash := interlink_hash E (interlink b) in
      if negb (Hash.equals (BlockHeader.interlinkHash (header b)) interlinkHash)
      then false
      (* Check that all transaction signatures are valid. *)
      else if negb (verify_signatures (BlockBody.transactions (body b))) then false
      (* Everything checks out. *)
      else true.

(** [Block.GENESIS.HASH] *)
Definition GENESIS_HASH : Hash.t :=
  Hash.fromBase64 "5eKwilmaRc8xCO79IXIFLPuuNOvfQ04BLMNenkhYfs0=".

(** [while (isProofOfWork(hash, Math.pow(2, nextTargetHeight - i)))
      { depth = i; i++; }], returning [depth]. *)
Fixpoint depth_loop (fuel : nat) (hash : Hash.t) (nextTargetHeight i depth : Z)
  : option Z :=
  match fuel with
  | O => None
  | S fuel' =>
      if BlockUtils.isProofOfWork hash (Math.pow2 (nextTargetHeight - i))
      then depth_loop fuel' hash nextTargetHeight (i + 1) i
      else Some depth
  end.

(** [async nextInterlink(nextTarget)] *)
Definition nextInterlink (fuel : nat) (b : t) (nextTarget : Z)
  : option BlockInterlink.t :=
  (* Compute how much harder the block hash is than the next target. *)
  let hash := hash b in
  let nextTargetHeight := BlockUtils.getTargetHeight nextTarget in
  match depth_loop fuel hash nextTargetHeight 1 0 with
  | None => None
  | Some depth =>
      (* If the block hash is not hard enough and the target height didn't
         change, the interlink doesn't change. *)
      let targetHeight := BlockUtils.getTargetHeight (target b) in
      if (depth =? 0) && (targetHeight =? nextTargetHeight)
      then Some (interlink b)
      else
        (* The interlink changes, start constructing a new one. *)
        let hashes := [Some GENESIS_HASH] in
        (* Push the current block hash up to depth times. *)
        let hashes := for_range 0 depth (fun _ hs => hs ++ [Some hash]) hashes in
        (* Push the remaining hashes from the current interlink. *)
        let offset := targetHeight - nextTargetHeight in
        let hashes :=
          for_range (depth + offset + 1) (BlockInterlink.length (interlink b))
            (fun j hs => hs ++ [Js.index (BlockInterlink.hashes (interlink b)) j])
            hashes in
        Some (BlockInterlink.mk hashes)
  end.

(** [async isSuccessorOf(prevBlock)]: how the promise that it returns
    settles, [Ok] when it is fulfilled and [Throw] when it is rejected.

    In [await prevBlock.nextInterlink(this.target).hash()] the [await]
    applies to the whole chain of calls: [.hash()] is called on what
    [nextInterlink] returns, which is a promise and not yet an interlink. *)
Definition isSuccessorOf (this prevBlock : t) : result bool :=
  (* Check that the height is one higher than previous *)
  if negb (BlockHeader.height (header this) =? BlockHeader.height (header prevBlock) + 1)
  then Ok false
  (* Check that the timestamp is greater or equal to the previous one. *)
  else if BlockHeader.timestamp (header this) <? BlockHeader.timestamp (header prevBlock)
  then Ok false
  else
    (* Check that the hash of the previous block equals prevHash. *)
    let prevHash := hash prevBlock in
    if negb (Hash.equals (BlockHeader.prevHash (header this)) prevHash)
    then Ok false
    else
      (* Check that the interlink hash is correct. *)
      let pending := promise (fun fuel => nextInterlink fuel prevBlock (target this)) in
      match call_on_promise pending "hash" with
      | Throw e => Throw e
      | Ok interlinkHash =>
          if negb (Hash.equals (BlockHeader.interlinkHash (header this)) interlinkHash)
          then Ok false
          (* Everything checks out. *)
          else Ok true
      end.

(** [Block.GENESIS] *)
Definition GENESIS : t :=
  mk (BlockHeader.mk
        Hash.null
        (Hash.fromBase64 "47DEQpj8HBSa+/TImW+5JCeuQeRkm5NMpJWZG3hSuFU=")
        (Hash.fromBase64 "Xmju8G32zjPl4m6U/ULB3Nyozs2BkVgX2k9fy5/HeEg=")
        (Hash.fromBase64 "3OXA29ZLjMiwzb52dseSuRH4Reha9lAh4qfPLm6SF28=")
        (difficultyToCompact E 1)
        1
        0
        38760)
     (BlockInterlink.mk [])
     (BlockBody.mk
        (Address.of_bytes (BufferUtils.fromBase64 "kekkD0FSI5gu3DRVMmMHEOlKf1I"))
        []).

End WithEnv.
End Block.

(** ** The specification's vocabulary *)

(** A call that takes fuel returns [v] when some amount of fuel yields it. *)
Definition returns {A : Type} (run : nat -> option A) (v : A) : Prop :=
  exists fuel, run fuel = Some v.

(** [lo, lo+1, ..., lo+n-1] *)
Definition Zseq (lo : Z) (n : nat) : list Z :=
  map (fun k => lo + Z.of_nat k) (seq 0 n).

(** Buffer computations that write a known number of bytes. *)
Module BufferSpec.
Import Js SerialBuffer.

(** [m] succeeds on a buffer with room for [n] more bytes, and writes
    exactly [n] bytes. *)
Definition writes {A} (n : nat) (m : M A) : Prop :=
  forall s, (writePos s + n <= length (bytes s))%nat ->
    exists a s', m s = (Ok a, s')
                 /\ writePos s' = (writePos s + n)%nat
                 /\ length (bytes s') = length (bytes s).

(** [m] throws [e] after it has written exactly [n] bytes. *)
Definition throws_after {A} (n : nat) (e : error) (m : M A) : Prop :=
  forall s, (writePos s + n <= length (bytes s))%nat ->
    exists s', m s = (Throw e, s') /\ writePos s' = (writePos s + n)%nat.

(** [m] throws on every buffer. *)
Definition never_returns {A} (m : M A) : Prop :=
  forall s, exists e, fst (m s) = Throw e.

(** [m] keeps the allocated bytes, and the write position within them. *)
Definition in_place {A} (m : M A) : Prop :=
  forall s, (writePos s <= length (bytes s))%nat ->
    (writePos (snd (m s)) <= length (bytes (snd (m s))))%nat
    /\ length (bytes (snd (m s))) = length (bytes s).

End BufferSpec.

Module Spec.
Section WithEnv.
Variable E : Env.

(** Rule 2: no two transactions, at different positions of the list, share
    a senderPubKey. *)
Definition no_shared_sender (txs : list Transaction.t) : Prop :=
  forall (i j : nat) (t1 t2 : Transaction.t),
    txs !! i = Some t1 -> txs !! j = Some t2 ->
    Transaction.senderPubKey t1 = Transaction.senderPubKey t2 -> i = j.

(** Section 4.6, "Verification": the seven rules. *)
Definition validation_rules (b : Block.t) : Prop :=
  let txs := BlockBody.transactions (Block.body b) in
  (* 1 *) Block.serializedSize E b <= BLOCK_SIZE_MAX E
  (* 2 *) /\ no_shared_sender txs
  (* 3 *) /\ Forall (fun tx => Transaction.recipientAddr tx <> getSenderAddr E tx) txs
  (* 4 *) /\ Block.verifyProofOfWork E (Block.header b) = true
  (* 5 *) /\ BlockHeader.bodyHash (Block.header b) = body_hash E (Block.body b)
  (* 6 *) /\ BlockHeader.interlinkHash (Block.header b)
             = interlink_hash E (Block.interlink b)
  (* 7 *) /\ Forall (fun tx => verifySignature E tx = true) txs.

(** Section 4.6, "Succession": the four conditions, the fourth through the
    interlink that [prev.nextInterlink(child.target)] returns. *)
Definition succession_rules (child prev : Block.t) : Prop :=
  (* 1 *) BlockHeader.height (Block.header child)
          = BlockHeader.height (Block.header prev) + 1
  (* 2 *) /\ BlockHeader.timestamp (Block.header child)
             >= BlockHeader.timestamp (Block.header prev)
  (* 3 *) /\ BlockHeader.prevHash (Block.header child) = Block.hash E prev
  (* 4 *) /\ exists il,
        returns (fun fuel => Block.nextInterlink E fuel prev (Block.target E child)) il
        /\ BlockHeader.interlinkHash (Block.header child) = interlink_hash E il.

(** [h] meets the targets [2^(hn-1), ..., 2^(hn-d)]. *)
Definition meets_levels (h : Hash.t) (hn d : Z) : Prop :=
  forall i, 1 <= i <= d ->
    BlockUtils.isProofOfWork h (Math.pow2 (hn - i)) = true.

(** Section 4.6, "Next interlink", step 1: the depth is the largest
    [d >= 0] such that [h] meets the first [d] levels. *)
Definition is_depth (h : Hash.t) (hn d : Z) : Prop :=
  0 <= d /\ meets_levels h hn d
  /\ forall d', 0 <= d' -> meets_levels h hn d' -> d' <= d.

(** The same as a test. *)
Definition is_depth_b (h : Hash.t) (hn d : Z) : bool :=
  (0 <=? d)
  && forallb (fun i => BlockUtils.isProofOfWork h (Math.pow2 (hn - i)))
             (Zseq 1 (Z.to_nat d))
  && negb (BlockUtils.isProofOfWork h (Math.pow2 (hn - (d + 1)))).

(** What the reads [hs[first], ..., hs[last]] give, an index outside the
    array reading as [undefined]. *)
Definition entries (hs : list (option Hash.t)) (first last : Z)
  : list (option Hash.t) :=
  map (Js.index hs) (Zseq first (Z.to_nat (last - first + 1))).

(** The vector that the two loops of [nextInterlink] push, given the depth. *)
Definition rebuilt (b : Block.t) (nextTarget d : Z) : list (option Hash.t) :=
  let offset := BlockUtils.getTargetHeight (Block.target E b)
                - BlockUtils.getTargetHeight nextTarget in
  [Some Block.GENESIS_HASH]
  ++ repeat (Some (Block.hash E b)) (Z.to_nat d)
  ++ entries (BlockInterlink.hashes (Block.interlink b))
             (d + offset + 1)
             (BlockInterlink.length (Block.interlink b) - 1).

(** The entries that an array has at the indices [first .. last]: an index
    outside the array is the index of no entry. *)
Definition entries_at (hs : list (option Hash.t)) (first last : Z)
  : list (option Hash.t) :=
  omap (fun j => if 0 <=? j then hs !! Z.to_nat j else None)
       (Zseq first (Z.to_nat (last - first + 1))).

(** Section 4.6, "Next interlink", step 3, in the words of the
    specification: the genesis hash, the hash [d] times, and "entries from
    the current interlink starting at index [d + offset + 1] through [L-1]". *)
Definition specified (b : Block.t) (nextTarget d : Z) : list (option Hash.t) :=
  let offset := BlockUtils.getTargetHeight (Block.target E b)
                - BlockUtils.getTargetHeight nextTarget in
  [Some Block.GENESIS_HASH]
  ++ repeat (Some (Block.hash E b)) (Z.to_nat d)
  ++ entries_at (BlockInterlink.hashes (Block.interlink b))
                (d + offset + 1)
                (BlockInterlink.length (Block.interlink b) - 1).

(** Step 2: the fast path applies. *)
Definition fast_path (b : Block.t) (nextTarget d : Z) : Prop :=
  d = 0 /\ BlockUtils.getTargetHeight (Block.target E b)
           = BlockUtils.getTargetHeight nextTarget.


(** Every element comes from the genesis hash, the block's own hash or an
    in-bounds position of its current interlink. *)
Definition in_bounds_only (b : Block.t) (il : BlockInterlink.t) : Prop :=
  Forall (fun x =>
            x = Some Block.GENESIS_HASH
            \/ x = Some (Block.hash E b)
            \/ exists j : nat,
                 (j < List.length (BlockInterlink.hashes (Block.interlink b)))%nat
                 /\ BlockInterlink.hashes (Block.interlink b) !! j = Some x)
         (BlockInterlink.hashes il).

End WithEnv.
End Spec.

(** ** Sample data *)

Module Sample.

(** The usual expansion of a compact target: the top byte is the size in
    bytes, the low three bytes the leading digits. *)
Definition expand (compact : Z) : Z :=
  Z.land compact 16777215 * 2 ^ (8 * (Z.shiftr compact 24 - 3)).

(** A stand-in for the node's collaborators: a header hashes to its nonce,
    except that the genesis nonce hashes to the recorded genesis hash;
    difficulty 1 is the target [2^240]. *)
Definition env : Env := {|
  BLOCK_SIZE_MAX := 1000000;
  header_hash := fun hd =>
    if BlockHeader.nonce hd =? 38760 then Block.GENESIS_HASH
    else BlockHeader.nonce hd;
  header_serializedSize := fun _ => 144;
  interlink_hash := fun il =>
    fold_left (fun acc h => (acc * 31 + default 7 h) mod 2 ^ 256)
              (BlockInterlink.hashes il) 1;
  interlink_serializedSize := fun il => 1 + 32 * BlockInterlink.length il;
  body_hash := fun bd => Z.of_nat (List.length (BlockBody.transactions bd));
  body_serializedSize := fun bd =>
    22 + 100 * Z.of_nat (List.length (BlockBody.transactions bd));
  getSenderAddr := fun tx => Transaction.senderPubKey tx mod 2 ^ 160;
  verifySignature := fun tx => Transaction.signature tx =? Transaction.senderPubKey tx;
  compactToTarget := expand;
  difficultyToCompact := fun _ => 520159232
|}.

(** Collaborators under which every header meets its target and the
    commitments of the genesis header are the hashes of its parts. *)
Definition accepting : Env := {|
  BLOCK_SIZE_MAX := 1000000;
  header_hash := fun _ => 1;
  header_serializedSize := fun _ => 144;
  interlink_hash := fun _ =>
    Hash.fromBase64 "47DEQpj8HBSa+/TImW+5JCeuQeRkm5NMpJWZG3hSuFU=";
  interlink_serializedSize := fun il => 1 + 32 * BlockInterlink.length il;
  body_hash := fun _ =>
    Hash.fromBase64 "Xmju8G32zjPl4m6U/ULB3Nyozs2BkVgX2k9fy5/HeEg=";
  body_serializedSize := fun bd =>
    22 + 100 * Z.of_nat (List.length (BlockBody.transactions bd));
  getSenderAddr := fun tx => Transaction.senderPubKey tx mod 2 ^ 160;
  verifySignature := fun _ => true;
  compactToTarget := expand;
  difficultyToCompact := fun _ => 520159232
|}.

(** The address of the spec's second scenario,
    [NetAddress(1, 0x0102030405060708, "example.com", 8443, 42)]. The
    literal has 57 bits; the number that it denotes is the nearest one that
    53 bits write down, 0x0102030405060700. *)
Definition address : NetAddress.t :=
  NetAddress.mk 1 (Js.nearest 72623859790382856) "example.com" 8443 42.

(** An address whose host is not in ASCII: the one character U+00E9, two
    bytes in UTF-8 (195, 169). *)
Definition accented : NetAddress.t :=
  NetAddress.mk 1 1500000000 (String "195"%char (String "169"%char ""%string))
                8443 42.

(** A header at target [2^10] (compact 0x03000400) with a given hash. *)
Definition header_with (hash : Z) : BlockHeader.t :=
  BlockHeader.mk 11 12 0 14 50332672 5 100 hash.

Definition interlink5 : BlockInterlink.t :=
  BlockInterlink.mk [Some Block.GENESIS_HASH; Some 21; Some 22; Some 23; Some 24].

Definition block_with (hash : Z) : Block.t :=
  Block.mk (header_with hash) interlink5 (BlockBody.mk 99 []).

(** The fourth scenario of the spec, a minimal child of the genesis block:
    height 2, the genesis hash as prevHash, and as interlinkHash the hash of
    the interlink that the genesis block computes for the child's target. *)
Definition genesis_child : Block.t :=
  let target := Block.target env (Block.GENESIS env) in
  let expected :=
    match Block.nextInterlink env 1 (Block.GENESIS env) target with
    | Some il => interlink_hash env il
    | None => 0
    end in
  Block.mk (BlockHeader.mk Block.GENESIS_HASH expected 0 0 520159232 2 0 77)
           (BlockInterlink.mk []) (BlockBody.mk 9 []).

End Sample.

(** ** Block.isSuccessorOf: the checks before the interlink *)

Module Chain.

(** One of the three checks of [isSuccessorOf] that come before the
    interlink fails. *)
Definition early_reject (E : Env) (this prevBlock : Block.t) : Prop :=
  BlockHeader.height (Block.header this)
    <> BlockHeader.height (Block.header prevBlock) + 1
  \/ BlockHeader.timestamp (Block.header this)
     < BlockHeader.timestamp (Block.header prevBlock)
  \/ BlockHeader.prevHash (Block.header this) <> Block.hash E prevBlock.

End Chain.

(** ** Block.verify with its warnings *)

Module BlockLog.
Section WithEnv.
Variable E : Env.

(** The first loop of [verify] with its calls of [Log.w]: the outcome and
    the messages logged, oldest first. *)
Fixpoint verify_senders (senderPubKeys : gmap Transaction.PublicKey bool)
                        (txs : list Transaction.t) : bool * list string :=
  match txs with
  | [] => (true, [])
  | tx :: rest =>
      if Block.seen senderPubKeys (Transaction.senderPubKey tx)
      then (false, ["Invalid block - more than one transaction per sender"%string])
      else
        let senderPubKeys := <[Transaction.senderPubKey tx := true]> senderPubKeys in
        let txSenderAddr := getSenderAddr E tx in
        if Address.equals (Transaction.recipientAddr tx) txSenderAddr
        then (false, ["Invalid block - sender and recipient coincide"%string])
        else verify_senders senderPubKeys rest
  end.

(** The last loop of [verify], likewise. *)
Fixpoint verify_signatures (txs : list Transaction.t) : bool * list string :=
  match txs with
  | [] => (true, [])
  | tx :: rest =>
      if negb (verifySignature E tx)
      then (false, ["Invalid block - invalid transaction signature"%string])
      else verify_signatures rest
  end.

(** [async verify()] with its calls of [Log.w]: what it returns and what it
    has logged by then. *)
Definition verify (b : Block.t) : bool * list string :=
  if Block.serializedSize E b >? BLOCK_SIZE_MAX E
  then (false, ["Invalid block - max block size exceeded"%string])
  else
    let '(ok, log) := verify_senders ∅ (BlockBody.transactions (Block.body b)) in
    if negb ok then (false, log)
    else if negb (Block.verifyProofOfWork E (Block.header b))
    then (false, log ++ ["Invalid block - PoW verification failed"%string])
    else
      let bodyHash := body_hash E (Block.body b) in
      if negb (Hash.equals (BlockHeader.bodyHash (Block.header b)) bodyHash)
      then (false, log ++ ["Invalid block - body hash mismatch"%string])
      else
        let interlinkHash := interlink_hash E (Block.interlink b) in
        if negb (Hash.equals (BlockHeader.interlinkHash (Block.header b)) interlinkHash)
        then (false, log ++ ["Invalid block - interlink hash mismatch"%string])
        else
          let '(ok', log') := verify_signatures (BlockBody.transactions (Block.body b)) in
          if negb ok' then (false, log ++ log')
          else (true, log ++ log').

(** The rule of section 4.6 that a warning reports as broken. *)
Definition reports (b : Block.t) (warning : string) : Prop :=
  let txs := BlockBody.transactions (Block.body b) in
  (warning = "Invalid block - max block size exceeded"%string
   /\ Block.serializedSize E b > BLOCK_SIZE_MAX E)
  \/ (warning = "Invalid block - more than one transaction per sender"%string
      /\ ~ Spec.no_shared_sender txs)
  \/ (warning = "Invalid block - sender and recipient coincide"%string
      /\ exists tx, tx ∈ txs /\ Transaction.recipientAddr tx = getSenderAddr E tx)
  \/ (warning = "Invalid block - PoW verification failed"%string
      /\ Block.verifyProofOfWork E (Block.header b) = false)
  \/ (warning = "Invalid block - body hash mismatch"%string
      /\ BlockHeader.bodyHash (Block.header b) <> body_hash E (Block.body b))
  \/ (warning = "Invalid block - interlink hash mismatch"%string
      /\ BlockHeader.interlinkHash (Block.header b)
         <> interlink_hash E (Block.interlink b))
  \/ (warning = "Invalid block - invalid transaction signature"%string
      /\ exists tx, tx ∈ txs /\ verifySignature E tx = false).

End WithEnv.
End BlockLog.

(** ** Block.js: construction, the wire form, equality *)

Module BlockWire.
Import Js SerialBuffer.

(** An argument of [new Block(header, interlink, body)]: an instance of one
    of the three classes, or any other value. *)
Inductive value : Type :=
| Header (h : BlockHeader.t)
| Interlink (il : BlockInterlink.t)
| Body (bd : BlockBody.t)
| Other.

(** [constructor(header, interlink, body)]; the string that it throws is
    carried by [Malformed]. *)
Definition constructor (header interlink body : value) : result Block.t :=
  match header with
  | Header h =>
      match interlink with
      | Interlink il =>
          match body with
          | Body bd => Ok (Block.mk h il bd)
          | _ => Throw (Malformed "Malformed body")
          end
      | _ => Throw (Malformed "Malformed interlink")
      end
  | _ => Throw (Malformed "Malformed header")
  end.

(** The serializers of the three parts, which are defined outside the
    sources at hand. *)
Record Parts : Type := {
  header_serialize : BlockHeader.t -> M unit;       (* header.serialize(buf) *)
  header_unserialize : M BlockHeader.t;             (* BlockHeader.unserialize(buf) *)
  interlink_serialize : BlockInterlink.t -> M unit;
  interlink_unserialize : M BlockInterlink.t;
  body_serialize : BlockBody.t -> M unit;
  body_unserialize : M BlockBody.t
}.

(** [static unserialize(buf)] *)
Definition unserialize (P : Parts) : M Block.t :=
  header ← header_unserialize P;
  interlink ← interlink_unserialize P;
  body ← body_unserialize P;
  match constructor (Header header) (Interlink interlink) (Body body) with
  | Ok b => mret b
  | Throw e => throw e
  end.

(** [serialize(buf)], with [buf = buf || new SerialBuffer(this.serializedSize)];
    the second component is the buffer, returned or left behind by a throw. *)
Definition serialize (E : Env) (P : Parts) (buf : option t) (b : Block.t)
  : result unit * t :=
  let buf := default (SerialBuffer.new (Block.serializedSize E b)) buf in
  (header_serialize P (Block.header b);;
   interlink_serialize P (Block.interlink b);;
   body_serialize P (Block.body b)) buf.

(** The argument of [equals(o)]: a block or any other value. *)
Inductive operand : Type :=
| Instance (b : Block.t)
| NotBlock.

(** The [equals] methods of the three parts. *)
Record PartEquals : Type := {
  header_equals : BlockHeader.t -> BlockHeader.t -> bool;
  interlink_equals : BlockInterlink.t -> BlockInterlink.t -> bool;
  body_equals : BlockBody.t -> BlockBody.t -> bool
}.

(** [equals(o)] *)
Definition equals (Q : PartEquals) (this : Block.t) (o : operand) : bool :=
  match o with
  | Instance o =>
      header_equals Q (Block.header this) (Block.header o)
      && interlink_equals Q (Block.interlink this) (Block.interlink o)
      && body_equals Q (Block.body this) (Block.body o)
  | NotBlock => false
  end.

(** The buffer after a read of [n] bytes. *)
Definition advance (n : nat) (s : t) : t :=
  {| bytes := bytes s; readPos := (readPos s + n)%nat; writePos := writePos s |}.

(** A serializer that puts the bytes [enc] for [x] at the write position of
    any buffer with room for them. *)
Definition writes_bytes {A} (ser : A -> M unit) (x : A) (enc : list Z) : Prop :=
  forall s, (writePos s + length enc <= length (bytes s))%nat ->
            ser x s = write enc s.

(** An unserializer that reads [x] from any buffer that holds [enc] at the
    read position, and moves that position past them. *)
Definition reads_back {A} (unser : M A) (x : A) (enc : list Z) : Prop :=
  forall s, take (length enc) (drop (readPos s) (bytes s)) = enc ->
            unser s = (Ok x, advance (length enc) s).

End BlockWire.

Module WireSample.
Import Js SerialBuffer.

(** Toy serializers: a header as its nonce, an interlink as its length, a
    body as its number of transactions; each reads back a fixed shape. *)
Definition parts : BlockWire.Parts := {|
  BlockWire.header_serialize := fun hd => writeUint32 (BlockHeader.nonce hd);
  BlockWire.header_unserialize := n ← readUint32; mret (Sample.header_with n);
  BlockWire.interlink_serialize := fun il => writeUint8 (BlockInterlink.length il);
  BlockWire.interlink_unserialize := _ ← readUint8; mret (BlockInterlink.mk []);
  BlockWire.body_serialize := fun bd =>
    writeUint16 (Z.of_nat (length (BlockBody.transactions bd)));
  BlockWire.body_unserialize := _ ← readUint16; mret (BlockBody.mk 99 [])
|}.

(** Collaborators whose sizes are those of the toy serializers. *)
Definition env : Env := {|
  BLOCK_SIZE_MAX := 1000000;
  header_hash := BlockHeader.nonce;
  header_serializedSize := fun _ => 4;
  interlink_hash := fun il => BlockInterlink.length il;
  interlink_serializedSize := fun _ => 1;
  body_hash := fun _ => 0;
  body_serializedSize := fun _ => 2;
  getSenderAddr := Transaction.senderPubKey;
  verifySignature := fun _ => true;
  compactToTarget := Sample.expand;
  difficultyToCompact := fun _ => 520159232
|}.

Definition block : Block.t :=
  Block.mk (Sample.header_with 7) (BlockInterlink.mk []) (BlockBody.mk 99 []).

#[global] Instance header_eq_dec : EqDecision BlockHeader.t.
Proof. solve_decision. Defined.

#[global] Instance interlink_eq_dec : EqDecision BlockInterlink.t.
Proof. solve_decision. Defined.

#[global] Instance transaction_eq_dec : EqDecision Transaction.t.
Proof. solve_decision. Defined.

#[global] Instance body_eq_dec : EqDecision BlockBody.t.
Proof. solve_decision. Defined.

(** Part equalities that compare field by field. *)
Definition part_equals : BlockWire.PartEquals := {|
  BlockWire.header_equals := fun x y => bool_decide (x = y);
  BlockWire.interlink_equals := fun x y => bool_decide (x = y);
  BlockWire.body_equals := fun x y => bool_decide (x = y)
|}.

End WireSample.

(** ** NetAddress.js: the printed form *)

Module NetAddressText.
Import NetAddress.

(** The integers that are numbers below [10^21] in absolute value: a number
    in this range prints its digits; a larger one prints with an exponent. *)
Definition prints (n : Z) : bool := Js.is_number n && (Z.abs n <? 10 ^ 21).

(** A number inside a string concatenation: the digits of [Js.shortest],
    after a minus sign when it is negative. [None] outside the range of
    [prints], which holds no value of a field of 16, 32 or 64 bits. *)
Definition number (n : Z) : option string :=
  if prints n then Some (pretty (Js.shortest n)) else None.

(** [toString()] *)
Definition toString (a : t) : option string :=
  services ← number (services a);
  timestamp ← number (timestamp a);
  port ← number (port a);
  signalId ← number (signalId a);
  Some ("NetAddress{services=" +:+ services +:+ ", timestamp="
        +:+ timestamp +:+ ", host=" +:+ host a +:+ ", port="
        +:+ port +:+ ", signalId=" +:+ signalId +:+ "}").



End NetAddressText.

(** ** NetAddress.js: the bytes *)

Module NetAddressBytes.
Import SerialBuffer NetAddress.

(** The four fields that [serialize] writes before it looks for [signalId]. *)
Definition head_bytes (a : t) : list Z :=
  be_bytes 4 (services a) ++ be_bytes 8 (timestamp a)
  ++ be_bytes 1 (Z.of_nat (String.length (host a))) ++ string_bytes (host a)
  ++ be_bytes 2 (port a).

(** The numeric fields of an address hold numbers. *)
Definition numbers (a : t) : bool :=
  Js.is_number (services a) && Js.is_number (timestamp a)
  && Js.is_number (port a) && Js.is_number (signalId a).

End NetAddressBytes.

(** * Properties *)

(** ** Buffer computations *)

Module BufferFacts.
Import Js SerialBuffer BufferSpec.

Lemma bind_run {A B} (m : M A) (f : A -> M B) (s : t) :
  (m ≫= f) s = match m s with
               | (Ok a, s') => f a s'
               | (Throw e, s') => (Throw e, s')
               end.
Proof. reflexivity. Qed.

Lemma writes_write (data : list Z) : writes (length data) (write data).
Proof.
  intros s Hfit. unfold write.
  destruct (Nat.leb_spec (writePos s + length data) (length (bytes s))) as [_|Hlt];
    [|lia].
  eexists tt, _. split; [reflexivity|]. simpl. split; [reflexivity|].
  rewrite !length_app, length_take, length_drop. lia.
Qed.

Lemma writes_ret {A} (a : A) : writes 0 (mret a : M A).
Proof. intros s _. exists a, s. repeat split. lia. Qed.

Lemma writes_bind {A B} n k (m : M A) (f : A -> M B) :
  writes n m -> (forall a, writes k (f a)) -> writes (n + k) (m ≫= f).
Proof.
  intros Hm Hf s Hfit. rewrite bind_run.
  destruct (Hm s) as (a & s1 & -> & Hpos & Hlen); [lia|].
  destruct (Hf a s1) as (b & s2 & -> & Hpos2 & Hlen2); [lia|].
  exists b, s2. repeat split; lia.
Qed.

Lemma throws_after_throw {A} (e : error) : throws_after 0 e (throw e : M A).
Proof. intros s _. exists s. split; [reflexivity|lia]. Qed.

Lemma throws_after_bind {A B} n k e (m : M A) (f : A -> M B) :
  writes n m -> (forall a, throws_after k e (f a)) ->
  throws_after (n + k) e (m ≫= f).
Proof.
  intros Hm Hf s Hfit. rewrite bind_run.
  destruct (Hm s) as (a & s1 & -> & Hpos & Hlen); [lia|].
  destruct (Hf a s1) as (s2 & -> & Hpos2); [lia|].
  exists s2. split; [reflexivity|lia].
Qed.

Lemma throws_after_bind_l {A B} n e (m : M A) (f : A -> M B) :
  throws_after n e m -> throws_after n e (m ≫= f).
Proof.
  intros Hm s Hfit. rewrite bind_run.
  destruct (Hm s) as (s1 & -> & Hpos); [lia|]. eauto.
Qed.

Lemma never_returns_bind {A B} (m : M A) (f : A -> M B) :
  (forall a, never_returns (f a)) -> never_returns (m ≫= f).
Proof.
  intros Hf s. rewrite bind_run. destruct (m s) as [[a|e] s1]; [apply Hf|eauto].
Qed.

Lemma length_be_bytes n v : length (be_bytes n v) = n.
Proof. induction n; simpl; congruence. Qed.

Lemma length_string_bytes s : length (string_bytes s) = String.length s.
Proof.
  unfold string_bytes. rewrite length_map.
  induction s; simpl; congruence.
Qed.

Lemma writes_writeUint16 v : writes 2 (writeUint16 v).
Proof. apply (writes_write (be_bytes 2 v)). Qed.

Lemma writes_writeUint32 v : writes 4 (writeUint32 v).
Proof. apply (writes_write (be_bytes 4 v)). Qed.

Lemma writes_writeUint64 v : writes 8 (writeUint64 v).
Proof. apply (writes_write (be_bytes 8 v)). Qed.

Lemma writes_writeVarLenString s :
  (String.length s <= 255)%nat -> writes (1 + String.length s) (writeVarLenString s).
Proof.
  intros Hlen. unfold writeVarLenString.
  destruct (Nat.leb_spec (String.length s) 255); [|lia].
  apply (writes_bind 1 (String.length s) (writeUint8 _) (fun _ => write (string_bytes s))).
  - apply (writes_write (be_bytes 1 _)).
  - intros _. rewrite <- (length_string_bytes s). apply writes_write.
Qed.

Lemma throws_writeVarLenString s :
  (255 < String.length s)%nat ->
  throws_after 0 (Malformed "VarLenString longer than 255 bytes")
               (writeVarLenString s).
Proof.
  intros Hlen. unfold writeVarLenString.
  destruct (Nat.leb_spec (String.length s) 255); [lia|].
  apply throws_after_throw.
Qed.

Lemma in_place_write (data : list Z) : in_place (write data).
Proof.
  intros s Hs. unfold write.
  destruct (Nat.leb_spec (writePos s + length data) (length (bytes s)))
    as [Hfit|Hlt]; simpl.
  - rewrite !length_app, length_take, length_drop. lia.
  - lia.
Qed.

Lemma in_place_ret {A} (a : A) : in_place (mret a : M A).
Proof. intros s Hs. simpl. lia. Qed.

Lemma in_place_throw {A} (e : error) : in_place (throw e : M A).
Proof. intros s Hs. simpl. lia. Qed.

Lemma in_place_bind {A B} (m : M A) (f : A -> M B) :
  in_place m -> (forall a, in_place (f a)) -> in_place (m ≫= f).
Proof.
  intros Hm Hf s Hs. rewrite bind_run.
  destruct (Hm s Hs) as [H1 H2].
  destruct (m s) as [[a|e] s1]; simpl in H1, H2.
  - destruct (Hf a s1 H1) as [H3 H4]. split; [exact H3|congruence].
  - simpl. split; assumption.
Qed.

Lemma in_place_writeVarLenString s : in_place (writeVarLenString s).
Proof.
  unfold writeVarLenString. destruct (String.length s <=? 255)%nat.
  - apply (in_place_bind (writeUint8 _) (fun _ => write (string_bytes s)));
      [apply in_place_write|intros _; apply in_place_write].
  - apply in_place_throw.
Qed.

(** On a string in ASCII the code units are the bytes. *)
Lemma string_length_ascii s :
  Js.is_ascii s = true -> Js.string_length s = String.length s.
Proof.
  unfold is_ascii, string_length.
  induction s as [|c s IH]; simpl; [reflexivity|].
  rewrite andb_true_iff. intros [Hc Hs].
  rewrite IH by exact Hs. unfold units. rewrite Hc. reflexivity.
Qed.

(** And the bytes are well-formed UTF-8. *)
Lemma utf8_valid_ascii s :
  Js.is_ascii s = true -> utf8_valid (string_bytes s) = true.
Proof.
  unfold is_ascii, utf8_valid, string_bytes.
  induction s as [|c s IH]; simpl; [reflexivity|].
  rewrite andb_true_iff. intros [Hc Hs].
  apply Z.ltb_lt in Hc.
  destruct (Z.leb_spec (Z.of_N (N_of_ascii c)) 127); [|lia].
  apply IH, Hs.
Qed.

End BufferFacts.

(** ** NetAddress *)

Module NetAddressFacts.
Import Js SerialBuffer BufferSpec BufferFacts NetAddress.

Lemma new_fits (n : Z) (k : nat) :
  Z.of_nat k <= n ->
  (writePos (SerialBuffer.new n) + k <= length (bytes (SerialBuffer.new n)))%nat.
Proof. intros H. simpl. rewrite repeat_length. lia. Qed.

Lemma length_new (n : Z) : length (bytes (SerialBuffer.new n)) = Z.to_nat n.
Proof. simpl. apply repeat_length. Qed.

Create HintDb buffer.
#[local] Hint Resolve writes_writeUint16 writes_writeUint32 writes_writeUint64
  writes_ret writes_writeVarLenString : buffer.

(** One more write of a sequence that succeeds, or of one that throws. *)
Ltac write_step :=
  first [apply writes_bind | apply throws_after_bind];
  [solve [auto with buffer] | intros ?].

(** With [signalId] bound, the five writes need 19 bytes and those of the
    host. *)
Lemma serialize_writes (ip : option string) (sid : Z) (a : t) :
  (String.length (host a) <= 255)%nat ->
  writes (4 + (8 + (1 + String.length (host a) + (2 + (0 + 4)))))
    (writeUint32 (services a);;
     writeUint64 (timestamp a);;
     writeVarLenString (host a);;
     writeUint16 (port a);;
     signalId ← resolve "signalId" (Some sid);
     writeUint32 signalId).
Proof.
  intros Hlen. do 4 write_step.
  apply writes_bind; [apply writes_ret|intros ?].
  apply writes_writeUint32.
Qed.

(** Without it, the fifth write is never reached. *)
Lemma serialize_throws (a : t) :
  (String.length (host a) <= 255)%nat ->
  throws_after (4 + (8 + (1 + String.length (host a) + (2 + 0))))
    (ReferenceError "signalId")
    (writeUint32 (services a);;
     writeUint64 (timestamp a);;
     writeVarLenString (host a);;
     writeUint16 (port a);;
     signalId ← resolve "signalId" None;
     writeUint32 signalId).
Proof.
  intros Hlen. do 4 write_step.
  apply throws_after_bind_l, throws_after_throw.
Qed.

Lemma serialize_long_host (sc : Scope) (a : t) :
  (255 < String.length (host a))%nat ->
  throws_after (4 + (8 + 0)) (Malformed "VarLenString longer than 255 bytes")
    (writeUint32 (services a);;
     writeUint64 (timestamp a);;
     writeVarLenString (host a);;
     writeUint16 (port a);;
     signalId ← resolve "signalId" (global_signalId sc);
     writeUint32 signalId).
Proof.
  intros Hlen. do 2 write_step.
  apply throws_after_bind_l, throws_writeVarLenString, Hlen.
Qed.

(** Whatever happens, the writes stay within the allocated buffer. *)
Lemma serialize_in_place (sc : Scope) (a : t) :
  in_place
    (writeUint32 (services a);;
     writeUint64 (timestamp a);;
     writeVarLenString (host a);;
     writeUint16 (port a);;
     signalId ← resolve "signalId" (global_signalId sc);
     writeUint32 signalId).
Proof.
  apply in_place_bind; [apply in_place_write|intros _].
  apply in_place_bind; [apply in_place_write|intros _].
  apply in_place_bind; [apply in_place_writeVarLenString|intros _].
  apply in_place_bind; [apply in_place_write|intros _].
  apply in_place_bind; [|intros ?; apply in_place_write].
  destruct (global_signalId sc); [apply in_place_ret|apply in_place_throw].
Qed.

(** Without a binding for [signalId] the sequence throws on every buffer,
    at the reference if not before. *)
Lemma serialize_never_returns (a : t) :
  never_returns
    (writeUint32 (services a);;
     writeUint64 (timestamp a);;
     writeVarLenString (host a);;
     writeUint16 (port a);;
     signalId ← resolve "signalId" None;
     writeUint32 signalId).
Proof.
  do 4 (apply never_returns_bind; intros ?).
  intros s. rewrite bind_run. simpl. eauto.
Qed.

(** In the repository's scope [serialize] throws for every address, within
    the buffer that it allocated; for a host in ASCII, before that buffer is
    full. *)
Lemma serialize_repository_scope (a : t) :
  exists e buf, serialize repository_scope None a = (Throw e, buf)
    /\ Z.of_nat (writePos buf) <= serializedSize a
    /\ (Js.is_ascii (host a) = true -> Z.of_nat (writePos buf) < serializedSize a).
Proof.
  unfold serialize, repository_scope. simpl default. simpl global_signalId.
  set (s0 := SerialBuffer.new (serializedSize a)).
  destruct (serialize_never_returns a s0) as [e He].
  destruct (serialize_in_place repository_scope a s0) as [Hpos Hlen];
    [simpl; lia|].
  simpl global_signalId in Hpos, Hlen.
  destruct ((writeUint32 (services a);; _) s0) as [r buf] eqn:Hrun.
  cbn [fst snd] in He, Hpos, Hlen. subst r.
  exists e, buf. split; [reflexivity|]. split.
  - unfold s0 in Hlen. rewrite length_new in Hlen. unfold serializedSize in *. lia.
  - intros Hascii. apply string_length_ascii in Hascii.
    destruct (Nat.le_gt_cases (String.length (host a)) 255) as [Hle|Hgt].
    + destruct (serialize_throws a Hle s0) as (buf' & Hrun' & Hpos').
      * apply new_fits. unfold serializedSize. lia.
      * rewrite Hrun in Hrun'. injection Hrun' as _ <-.
        rewrite Hpos'. unfold serializedSize. simpl writePos. lia.
    + destruct (serialize_long_host repository_scope a Hgt s0)
        as (buf' & Hrun' & Hpos').
      * apply new_fits. unfold serializedSize. lia.
      * simpl global_signalId in Hrun'.
        rewrite Hrun in Hrun'. injection Hrun' as _ <-.
        rewrite Hpos'. unfold serializedSize. simpl writePos. lia.
Qed.

(** In the repository's scope [unserialize] throws on every buffer: on a
    short one [Truncated], on a complete one the ReferenceError. *)
Lemma unserialize_repository_scope : never_returns (unserialize repository_scope).
Proof.
  unfold unserialize.
  do 5 (apply never_returns_bind; intros ?).
  intros s. rewrite bind_run. simpl. eauto.
Qed.

(** With [signalId] bound, a host in ASCII of at most 255 characters makes
    [serialize] fill a fresh buffer of [serializedSize] bytes to its end. *)
Lemma serialize_fills (ip : option string) (sid : Z) (a : t) :
  Js.is_ascii (host a) = true ->
  (String.length (host a) <= 255)%nat ->
  exists buf,
    serialize {| global_ipAddress := ip; global_signalId := Some sid |} None a
    = (Ok tt, buf)
    /\ Z.of_nat (writePos buf) = serializedSize a
    /\ length (bytes buf) = writePos buf.
Proof.
  intros Hascii Hle. apply string_length_ascii in Hascii.
  destruct (serialize_writes ip sid a Hle (SerialBuffer.new (serializedSize a)))
    as ([] & buf & Hrun & Hpos & Hlen).
  - apply new_fits. unfold serializedSize. lia.
  - exists buf. split; [exact Hrun|].
    rewrite Hlen, length_new, Hpos. unfold serializedSize.
    simpl writePos. lia.
Qed.

(** C6. [NetAddress.unserialize(a.serialize())] does not recover [a]: in the
    scope of the repository, where neither [signalId] nor [ipAddress] is
    declared, [serialize] throws for every address before its last write, so
    that it never returns a buffer with [serializedSize] bytes written (for
    a host in ASCII fewer are written) and the round trip throws;
    [unserialize] throws on every buffer; and at the address of the spec's
    second scenario the exception is the ReferenceError on [signalId] after
    26 of the 30 bytes. *)
Theorem NetAddress_roundtrip_throws :
  (forall a, exists e, roundtrip repository_scope a = Throw e)
  /\ (forall a, exists e buf,
         serialize repository_scope None a = (Throw e, buf)
         /\ Z.of_nat (writePos buf) <= serializedSize a
         /\ (Js.is_ascii (host a) = true ->
             Z.of_nat (writePos buf) < serializedSize a))
  /\ (forall buf, exists e, fst (unserialize repository_scope buf) = Throw e)
  /\ roundtrip repository_scope Sample.address = Throw (ReferenceError "signalId")
  /\ writePos (snd (serialize repository_scope None Sample.address)) = 26%nat
  /\ serializedSize Sample.address = 30.
Proof.
  split; [|split; [|split; [|split; [|split]]]].
  - intros a. unfold roundtrip.
    destruct (serialize_repository_scope a) as (e & buf & -> & _). eauto.
  - apply serialize_repository_scope.
  - apply unserialize_repository_scope.
  - vm_compute. reflexivity.
  - vm_compute. reflexivity.
  - vm_compute. reflexivity.
Qed.

(** Even where both names are bound, what comes back is the bound
    [ipAddress] and [signalId], not the fields of the address. *)
Example roundtrip_bound_scope :
  roundtrip {| global_ipAddress := Some "10.0.0.1"%string;
               global_signalId := Some 7 |} Sample.address
  = Ok (NetAddress.mk 1 72623859790382848 "10.0.0.1" 8443 7).
Proof. vm_compute. reflexivity. Qed.

(** C9. [serializedSize] is 19 plus the length of the host, 30 for the
    address of the spec's second scenario, and [serialize] allocates its
    buffer by it; but it is not the number of bytes that [serialize] writes.
    Where [signalId] resolves and the host is in ASCII, the five writes fill
    the buffer exactly. In the repository, where [signalId] is not declared,
    the scenario's address gets 26 of its 30 bytes and a ReferenceError. And
    the length of the host counts UTF-16 code units, where the wire form has
    UTF-8 bytes: for the host of one character U+00E9 [serializedSize] is 20
    while the writes need 21 bytes, so that with [signalId] bound the last
    write does not fit and throws after 17 bytes. *)
Theorem NetAddress_serializedSize_written :
  (forall a, serializedSize a = 19 + Z.of_nat (Js.string_length (host a)))
  /\ serializedSize Sample.address = 30
  /\ (forall a ip sid,
        Js.is_ascii (host a) = true ->
        (String.length (host a) <= 255)%nat ->
        exists buf,
          serialize {| global_ipAddress := ip; global_signalId := Some sid |} None a
          = (Ok tt, buf)
          /\ Z.of_nat (writePos buf) = serializedSize a
          /\ length (bytes buf) = writePos buf)
  /\ (exists buf,
        serialize repository_scope None Sample.address
        = (Throw (ReferenceError "signalId"), buf)
        /\ writePos buf = 26%nat)
  /\ serializedSize Sample.accented = 20
  /\ (4 + 8 + (1 + length (string_bytes (host Sample.accented))) + 2 + 4 = 21)%nat
  /\ (forall ip sid, exists e buf,
        serialize {| global_ipAddress := ip; global_signalId := Some sid |}
                  None Sample.accented
        = (Throw e, buf)
        /\ writePos buf = 17%nat).
Proof.
  split; [|split; [|split; [|split; [|split; [|split]]]]].
  - intros a. unfold serializedSize. lia.
  - vm_compute. reflexivity.
  - intros a ip sid. apply serialize_fills.
  - eexists. split; vm_compute; reflexivity.
  - vm_compute. reflexivity.
  - vm_compute. reflexivity.
  - intros ip sid. eexists _, _. split.
    + unfold serialize. simpl default. simpl global_signalId.
      rewrite !bind_run. cbv -[be_bytes]. reflexivity.
    + reflexivity.
Qed.

(** C10. [a.equals(b)] holds exactly when services, host, port and signalId
    agree; the timestamps of the two addresses have no influence, and a value
    that is not a NetAddress is never equal. *)
Theorem NetAddress_equals_iff :
  (forall a b,
      equals a (Instance b) = true
      <-> services a = services b /\ host a = host b
          /\ port a = port b /\ signalId a = signalId b)
  /\ (forall s h p i ts ts',
         equals (NetAddress.mk s ts h p i) (Instance (NetAddress.mk s ts' h p i)) = true)
  /\ (forall a b ts ts',
         equals (NetAddress.mk (services a) ts (host a) (port a) (signalId a))
                (Instance (NetAddress.mk (services b) ts' (host b) (port b) (signalId b)))
         = equals a (Instance b))
  /\ (forall a, equals a Other = false).
Proof.
  assert (Hiff : forall a b,
      equals a (Instance b) = true
      <-> services a = services b /\ host a = host b
          /\ port a = port b /\ signalId a = signalId b).
  { intros a b. unfold equals.
    rewrite !andb_true_iff, !Z.eqb_eq, String.eqb_eq. tauto. }
  split; [exact Hiff|split; [|split]].
  - intros. apply Hiff. simpl. auto.
  - reflexivity.
  - reflexivity.
Qed.

End NetAddressFacts.

(** ** Targets that are powers of two *)

Module PowFacts.

Lemma pow2_nonneg (k : Z) : 0 <= k -> (Math.pow2 k == inject_Z (2 ^ k))%Q.
Proof.
  intros Hk. unfold Math.pow2.
  rewrite Zpower_Qpower by exact Hk. reflexivity.
Qed.

Lemma pow2_neg (k : Z) : k < 0 -> (0 < Math.pow2 k)%Q /\ (Math.pow2 k < 1)%Q.
Proof.
  intros Hk.
  assert (H2 : 1 < 2 ^ (- k)) by (apply Z.pow_gt_1; lia).
  assert (Hq : (inject_Z 1 < inject_Z (2 ^ (- k)))%Q)
    by (rewrite <- Zlt_Qlt; exact H2).
  assert (Hpos : (inject_Z 0 < inject_Z (2 ^ (- k)))%Q)
    by (rewrite <- Zlt_Qlt; lia).
  assert (Heq : (Math.pow2 k == / inject_Z (2 ^ (- k)))%Q).
  { unfold Math.pow2. replace k with (- (- k)) at 1 by lia.
    rewrite Qpower_opp. apply Qinv_comp. symmetry.
    apply (Zpower_Qpower 2). lia. }
  rewrite Heq. split.
  - apply Qinv_lt_0_compat, Hpos.
  - change 1%Q with (/ inject_Z 1)%Q.
    exact (proj1 (Qinv_lt_contravar (inject_Z 1) _ eq_refl Hpos) Hq).
Qed.

(** A hash meets [2^k] when it is at most that power, and a fraction
    ([k < 0]) only when it is zero or less. *)
Lemma isProofOfWork_pow2 (h k : Z) :
  BlockUtils.isProofOfWork h (Math.pow2 k)
  = if 0 <=? k then h <=? 2 ^ k else h <=? 0.
Proof.
  unfold BlockUtils.isProofOfWork. apply eq_true_iff_eq.
  rewrite Qle_bool_iff.
  destruct (Z.leb_spec 0 k) as [Hk|Hk].
  - rewrite (pow2_nonneg k Hk), <- Zle_Qle, Z.leb_le. reflexivity.
  - destruct (pow2_neg k Hk) as [Hpos Hlt1]. rewrite Z.leb_le. split.
    + intros Hle. destruct (Z.le_gt_cases h 0) as [|Hh]; [assumption|].
      exfalso. apply (Qlt_not_le _ _ Hlt1).
      eapply Qle_trans; [|exact Hle].
      change 1%Q with (inject_Z 1). rewrite <- Zle_Qle. lia.
    + intros Hh. apply Qle_trans with (inject_Z 0).
      * rewrite <- Zle_Qle. exact Hh.
      * apply Qlt_le_weak, Hpos.
Qed.

(** A harder level is met only if the easier one is. *)
Lemma isProofOfWork_pow2_mono (h k k' : Z) :
  k <= k' ->
  BlockUtils.isProofOfWork h (Math.pow2 k) = true ->
  BlockUtils.isProofOfWork h (Math.pow2 k') = true.
Proof.
  intros Hk. rewrite !isProofOfWork_pow2.
  assert (Hpow : 0 <= k -> 2 ^ k <= 2 ^ k') by (intros; apply Z.pow_le_mono_r; lia).
  assert (Hpos : 0 <= 2 ^ k') by (apply Z.pow_nonneg; lia).
  destruct (Z.leb_spec 0 k), (Z.leb_spec 0 k'); rewrite !Z.leb_le; lia.
Qed.

End PowFacts.

(** ** Loops *)

Module LoopFacts.

Lemma Zseq_S (lo : Z) (n : nat) : Zseq lo (S n) = lo :: Zseq (lo + 1) n.
Proof.
  unfold Zseq. simpl. f_equal; [lia|].
  rewrite <- seq_shift, map_map. apply map_ext. intros k. lia.
Qed.

Lemma length_Zseq (lo : Z) (n : nat) : length (Zseq lo n) = n.
Proof. unfold Zseq. rewrite length_map. apply length_seq. Qed.

Lemma lookup_Zseq (lo : Z) (n i : nat) :
  (i < n)%nat -> Zseq lo n !! i = Some (lo + Z.of_nat i).
Proof.
  intros Hi. unfold Zseq. rewrite list_lookup_fmap.
  rewrite lookup_seq_lt by exact Hi. reflexivity.
Qed.

(** Rounds beyond [hi - lo] are never run: [for_range] is the whole loop. *)
Lemma for_loop_rounds {St} (hi : Z) (body : Z -> St -> St) :
  forall (n : nat) (lo : Z) (s : St),
    (Z.to_nat (hi - lo) <= n)%nat ->
    for_loop n lo hi body s = for_range lo hi body s.
Proof.
  unfold for_range. induction n as [|n IH]; intros lo s Hn.
  - replace (Z.to_nat (hi - lo)) with O by lia. reflexivity.
  - simpl. destruct (Z.ltb_spec lo hi) as [Hlt|Hge].
    + rewrite IH by lia.
      replace (Z.to_nat (hi - lo)) with (S (Z.to_nat (hi - (lo + 1)))) by lia.
      simpl. destruct (Z.ltb_spec lo hi); [reflexivity|lia].
    + replace (Z.to_nat (hi - lo)) with O by lia. reflexivity.
Qed.

(** A loop that pushes [f j] for each index pushes the image of the range. *)
Lemma for_loop_push {A} (f : Z -> A) (hi : Z) :
  forall (n : nat) (lo : Z) (acc : list A),
    n = Z.to_nat (hi - lo) ->
    for_loop n lo hi (fun j hs => hs ++ [f j]) acc = acc ++ map f (Zseq lo n).
Proof.
  induction n as [|n IH]; intros lo acc Hn.
  - simpl. rewrite app_nil_r. reflexivity.
  - simpl for_loop. destruct (Z.ltb_spec lo hi) as [Hlt|Hge]; [|lia].
    rewrite IH by lia. rewrite Zseq_S. simpl. rewrite <- app_assoc. reflexivity.
Qed.

Lemma for_range_push {A} (f : Z -> A) (lo hi : Z) (acc : list A) :
  for_range lo hi (fun j hs => hs ++ [f j]) acc
  = acc ++ map f (Zseq lo (Z.to_nat (hi - lo))).
Proof. unfold for_range. apply for_loop_push. reflexivity. Qed.

Lemma map_const_repeat {A B} (x : B) (l : list A) :
  map (fun _ => x) l = repeat x (length l).
Proof. induction l; simpl; congruence. Qed.

End LoopFacts.

(** ** Block.nextInterlink *)

Module NextInterlinkFacts.
Import PowFacts LoopFacts.

(** *** The depth loop *)

(** [k] levels met from [i] on and the next one missed: the loop leaves
    after [k] rounds. *)
Lemma depth_loop_run (h hn : Z) :
  forall (k fuel : nat) (i depth : Z),
    (forall j, i <= j < i + Z.of_nat k ->
               BlockUtils.isProofOfWork h (Math.pow2 (hn - j)) = true) ->
    BlockUtils.isProofOfWork h (Math.pow2 (hn - (i + Z.of_nat k))) = false ->
    (k < fuel)%nat ->
    Block.depth_loop fuel h hn i depth
    = Some (match k with O => depth | S _ => i + Z.of_nat k - 1 end).
Proof.
  induction k as [|k IH]; intros fuel i depth Hmeet Hmiss Hfuel;
    (destruct fuel as [|fuel]; [lia|]); simpl Block.depth_loop.
  - replace (i + Z.of_nat 0) with i in Hmiss by lia. rewrite Hmiss. reflexivity.
  - rewrite (Hmeet i) by lia.
    rewrite (IH fuel (i + 1) i).
    + f_equal. destruct k; lia.
    + intros j Hj. apply Hmeet. lia.
    + replace (i + 1 + Z.of_nat k) with (i + Z.of_nat (S k)) by lia. exact Hmiss.
    + lia.
Qed.


Lemma depth_loop_fuel (h hn : Z) :
  forall (fuel fuel' : nat) (i depth d : Z),
    Block.depth_loop fuel h hn i depth = Some d ->
    (fuel <= fuel')%nat ->
    Block.depth_loop fuel' h hn i depth = Some d.
Proof.
  induction fuel as [|fuel IH]; intros fuel' i depth d Hrun Hle; [discriminate|].
  destruct fuel' as [|fuel']; [lia|]. simpl in *.
  destruct (BlockUtils.isProofOfWork h (Math.pow2 (hn - i))); [|exact Hrun].
  apply (IH fuel'); [exact Hrun|lia].
Qed.

Lemma is_depth_miss (h hn d : Z) :
  Spec.is_depth h hn d ->
  BlockUtils.isProofOfWork h (Math.pow2 (hn - (d + 1))) = false.
Proof.
  intros (Hd & Hmeet & Hmax).
  destruct (BlockUtils.isProofOfWork h (Math.pow2 (hn - (d + 1)))) eqn:Hnext;
    [|reflexivity].
  exfalso. assert (d + 1 <= d); [|lia].
  apply Hmax; [lia|]. intros i Hi.
  destruct (Z.eq_dec i (d + 1)) as [->|]; [exact Hnext|]. apply Hmeet. lia.
Qed.

Lemma is_depth_intro (h hn d : Z) :
  0 <= d ->
  Spec.meets_levels h hn d ->
  BlockUtils.isProofOfWork h (Math.pow2 (hn - (d + 1))) = false ->
  Spec.is_depth h hn d.
Proof.
  intros Hd Hmeet Hmiss. split; [exact Hd|]. split; [exact Hmeet|].
  intros d' Hd' Hmeet'. destruct (Z.le_gt_cases d' d) as [|Hgt]; [assumption|].
  rewrite (Hmeet' (d + 1)) in Hmiss by lia. discriminate.
Qed.

Lemma is_depth_b_correct (h hn d : Z) :
  Spec.is_depth_b h hn d = true -> Spec.is_depth h hn d.
Proof.
  unfold Spec.is_depth_b. rewrite !andb_true_iff, negb_true_iff, Z.leb_le.
  intros [[Hd Hall] Hmiss]. apply is_depth_intro; [exact Hd| |exact Hmiss].
  intros i Hi. rewrite forallb_forall in Hall. apply Hall.
  apply list_elem_of_In, list_elem_of_lookup. exists (Z.to_nat (i - 1)).
  rewrite lookup_Zseq by lia. f_equal. lia.
Qed.

(** The loop returns the depth of the specification, with any fuel above it. *)
Lemma depth_loop_is_depth (h hn d : Z) (fuel : nat) :
  Spec.is_depth h hn d ->
  (Z.to_nat d < fuel)%nat ->
  Block.depth_loop fuel h hn 1 0 = Some d.
Proof.
  intros Hdepth Hfuel. pose proof (is_depth_miss _ _ _ Hdepth) as Hmiss.
  destruct Hdepth as (Hd & Hmeet & _).
  rewrite (depth_loop_run h hn (Z.to_nat d)).
  - f_equal. destruct (Z.to_nat d) eqn:Hk; lia.
  - intros j Hj. apply Hmeet. lia.
  - replace (1 + Z.of_nat (Z.to_nat d)) with (d + 1) by lia. exact Hmiss.
  - exact Hfuel.
Qed.


(** A hash of zero meets every level: the loop never leaves. *)
Lemma depth_loop_zero_hash (hn : Z) :
  forall (fuel : nat) (i depth : Z), Block.depth_loop fuel 0 hn i depth = None.
Proof.
  induction fuel as [|fuel IH]; intros i depth; [reflexivity|].
  simpl. rewrite isProofOfWork_pow2.
  destruct (0 <=? hn - i) eqn:Hk.
  - assert (0 <= 2 ^ (hn - i)) by (apply Z.pow_nonneg; lia).
    destruct (Z.leb_spec 0 (2 ^ (hn - i))); [apply IH|lia].
  - simpl. apply IH.
Qed.

(** A positive hash misses some level: the loop leaves. *)
Lemma depth_loop_total (h hn : Z) :
  0 < h -> exists d, Block.depth_loop (S (Z.to_nat hn)) h hn 1 0 = Some d.
Proof.
  intros Hh.
  assert (Hgen : forall (fuel : nat) (i depth : Z),
             (Z.to_nat (hn - i + 1) < fuel)%nat ->
             exists d, Block.depth_loop fuel h hn i depth = Some d).
  { induction fuel as [|fuel IH]; intros i depth Hfuel; [lia|].
    simpl. destruct (BlockUtils.isProofOfWork h (Math.pow2 (hn - i))) eqn:Hi;
      [|eauto].
    apply IH. rewrite isProofOfWork_pow2 in Hi.
    destruct (Z.leb_spec 0 (hn - i)); [lia|]. apply Z.leb_le in Hi. lia. }
  destruct (BlockUtils.isProofOfWork h (Math.pow2 (hn - 1))) eqn:H1.
  - simpl. rewrite H1. rewrite isProofOfWork_pow2 in H1.
    destruct (Z.leb_spec 0 (hn - 1)); [|apply Z.leb_le in H1; lia].
    apply Hgen. lia.
  - simpl. rewrite H1. eauto.
Qed.

(** *** The two paths *)

Section Paths.
Variable E : Env.

(** The result of [nextInterlink] once the loop has returned [d]. *)
Lemma nextInterlink_run (fuel : nat) (b : Block.t) (nextTarget d : Z) :
  Block.depth_loop fuel (Block.hash E b)
                   (BlockUtils.getTargetHeight nextTarget) 1 0 = Some d ->
  Block.nextInterlink E fuel b nextTarget
  = Some (if (d =? 0)
             && (BlockUtils.getTargetHeight (Block.target E b)
                 =? BlockUtils.getTargetHeight nextTarget)
          then Block.interlink b
          else BlockInterlink.mk (Spec.rebuilt E b nextTarget d)).
Proof.
  intros Hloop. unfold Block.nextInterlink. rewrite Hloop.
  destruct ((d =? 0) && _); [reflexivity|].
  do 2 f_equal. unfold Spec.rebuilt, Spec.entries.
  rewrite !for_range_push, map_const_repeat, length_Zseq, <- app_assoc.
  repeat f_equal; lia.
Qed.

(** A start index inside the array: the tail is the rest of the array. *)
Lemma entries_suffix (hs : list (option Hash.t)) (first : Z) :
  0 <= first ->
  Spec.entries hs first (Z.of_nat (length hs) - 1) = drop (Z.to_nat first) hs.
Proof.
  intros Hfirst. unfold Spec.entries. apply list_eq. intros i.
  rewrite list_lookup_fmap, lookup_drop.
  destruct (Nat.lt_ge_cases i (Z.to_nat (Z.of_nat (length hs) - 1 - first + 1)))
    as [Hi|Hi].
  - rewrite lookup_Zseq by exact Hi. simpl. unfold Js.index.
    destruct (Z.leb_spec 0 (first + Z.of_nat i)); [|lia].
    replace (Z.to_nat (first + Z.of_nat i)) with (Z.to_nat first + i)%nat by lia.
    destruct (hs !! (Z.to_nat first + i)%nat) as [x|] eqn:Hx; [reflexivity|].
    apply lookup_ge_None in Hx. lia.
  - rewrite (proj2 (lookup_ge_None _ _)) by (rewrite length_Zseq; exact Hi).
    symmetry. apply lookup_ge_None. lia.
Qed.

(** A start index past the end: the tail is empty. *)
Lemma entries_empty (hs : list (option Hash.t)) (first : Z) :
  first >= Z.of_nat (length hs) ->
  Spec.entries hs first (Z.of_nat (length hs) - 1) = [].
Proof.
  intros Hfirst. unfold Spec.entries.
  replace (Z.to_nat (Z.of_nat (length hs) - 1 - first + 1)) with O by lia.
  reflexivity.
Qed.

(** A start index before the array: the tail begins with [undefined]. *)
Lemma entries_negative (hs : list (option Hash.t)) (first : Z) :
  first < 0 ->
  exists rest, Spec.entries hs first (Z.of_nat (length hs) - 1) = None :: rest.
Proof.
  intros Hfirst. unfold Spec.entries.
  destruct (Z.to_nat (Z.of_nat (length hs) - 1 - first + 1)) as [|n] eqn:Hn; [lia|].
  rewrite Zseq_S. simpl. unfold Js.index.
  destruct (Z.leb_spec 0 first); [lia|]. eauto.
Qed.

(** More fuel does not change what [nextInterlink] returns. *)
Lemma nextInterlink_fuel (fuel fuel' : nat) (b : Block.t) (nextTarget : Z)
      (il : BlockInterlink.t) :
  Block.nextInterlink E fuel b nextTarget = Some il ->
  (fuel <= fuel')%nat ->
  Block.nextInterlink E fuel' b nextTarget = Some il.
Proof.
  intros Hrun Hle.
  destruct (Block.depth_loop fuel (Block.hash E b)
              (BlockUtils.getTargetHeight nextTarget) 1 0) as [d|] eqn:Hloop.
  - rewrite (nextInterlink_run fuel b nextTarget d Hloop) in Hrun.
    rewrite (nextInterlink_run fuel' b nextTarget d); [exact Hrun|].
    apply (depth_loop_fuel _ _ fuel); assumption.
  - unfold Block.nextInterlink in Hrun. rewrite Hloop in Hrun. discriminate.
Qed.

Lemma nextInterlink_returns_unique (b : Block.t) (nextTarget : Z)
      (il il' : BlockInterlink.t) :
  returns (fun fuel => Block.nextInterlink E fuel b nextTarget) il ->
  returns (fun fuel => Block.nextInterlink E fuel b nextTarget) il' ->
  il = il'.
Proof.
  intros [n Hn] [n' Hn'].
  apply (nextInterlink_fuel n (max n n')) in Hn; [|lia].
  apply (nextInterlink_fuel n' (max n n')) in Hn'; [|lia].
  congruence.
Qed.

(** With a positive hash the call returns, and [getTargetHeight(nextTarget)]
    rounds of the loop are enough. *)
Lemma nextInterlink_total (b : Block.t) (nextTarget : Z) :
  0 < Block.hash E b ->
  exists il,
    Block.nextInterlink E (S (Z.to_nat (BlockUtils.getTargetHeight nextTarget)))
                        b nextTarget = Some il.
Proof.
  intros Hh.
  destruct (depth_loop_total _ (BlockUtils.getTargetHeight nextTarget) Hh)
    as [d Hloop].
  rewrite (nextInterlink_run _ b nextTarget d Hloop). eauto.
Qed.

(** With the hash zero it does not. *)
Lemma nextInterlink_zero_hash (b : Block.t) (nextTarget : Z) (fuel : nat) :
  Block.hash E b = 0 -> Block.nextInterlink E fuel b nextTarget = None.
Proof.
  intros Hh. unfold Block.nextInterlink.
  rewrite Hh, depth_loop_zero_hash. reflexivity.
Qed.

End Paths.

(** Where the start index is not negative, every index that the loop reads
    up to [L-1] holds an entry: the reads give what the specification
    describes, the rest of the array from that index on. *)
Lemma entries_at_suffix (hs : list (option Hash.t)) (first : Z) :
  0 <= first ->
  Spec.entries_at hs first (Z.of_nat (length hs) - 1) = drop (Z.to_nat first) hs.
Proof.
  intros Hfirst. unfold Spec.entries_at.
  set (f := fun j : Z => if 0 <=? j then hs !! Z.to_nat j else None).
  assert (Hgen : forall (n : nat) (lo : Z), 0 <= lo ->
             omap f (Zseq lo n) = take n (drop (Z.to_nat lo) hs)).
  { induction n as [|n IH]; intros lo Hlo; [reflexivity|].
    rewrite Zseq_S.
    change (omap f (lo :: Zseq (lo + 1) n))
      with (match f lo with
            | Some y => y :: omap f (Zseq (lo + 1) n)
            | None => omap f (Zseq (lo + 1) n)
            end).
    rewrite (IH (lo + 1)) by lia.
    replace (Z.to_nat (lo + 1)) with (S (Z.to_nat lo)) by lia.
    unfold f. destruct (Z.leb_spec 0 lo); [|lia].
    destruct (hs !! Z.to_nat lo) as [x|] eqn:Hx.
    - rewrite (drop_S _ _ _ Hx). reflexivity.
    - apply lookup_ge_None in Hx.
      rewrite !drop_ge by lia. destruct n; reflexivity. }
  rewrite Hgen by exact Hfirst. apply take_ge. rewrite length_drop. lia.
Qed.

(** So there the two loops push the vector of the specification. *)
Lemma rebuilt_specified (E : Env) (b : Block.t) (nextTarget d : Z) :
  0 <= d + (BlockUtils.getTargetHeight (Block.target E b)
            - BlockUtils.getTargetHeight nextTarget) + 1 ->
  Spec.rebuilt E b nextTarget d = Spec.specified E b nextTarget d.
Proof.
  intros Hstart. unfold Spec.rebuilt, Spec.specified, BlockInterlink.length.
  rewrite entries_suffix, entries_at_suffix by exact Hstart. reflexivity.
Qed.

(** C3 fails on the code. Where the start index [d + offset + 1] of the tail
    is not negative, [nextInterlink] off the fast path returns the vector of
    the claim: the genesis hash, the hash [d] times for the depth [d] of the
    specification, and the entries of the current interlink from that index
    up to [L-1], none when the index is [L] or more. Where it is negative the
    loop reads before the start of the array: the block at target [2^10]
    with hash 5000, asked at target [2^13], has depth 0 and is off the fast
    path, the claim's vector is the genesis hash and the five entries, and
    the call returns a vector with two [undefined] in between. *)
Theorem nextInterlink_rebuilds_before_start :
  (forall (E : Env) (b : Block.t) (nextTarget d : Z),
      let h := Block.hash E b in
      let hn := BlockUtils.getTargetHeight nextTarget in
      let offset := BlockUtils.getTargetHeight (Block.target E b) - hn in
      let L := BlockInterlink.length (Block.interlink b) in
      Spec.is_depth h hn d ->
      ~ Spec.fast_path E b nextTarget d ->
      0 <= d + offset + 1 ->
      returns (fun fuel => Block.nextInterlink E fuel b nextTarget)
              (BlockInterlink.mk (Spec.specified E b nextTarget d))
      /\ (forall fuel il, Block.nextInterlink E fuel b nextTarget = Some il ->
                          il = BlockInterlink.mk (Spec.specified E b nextTarget d))
      /\ (d + offset + 1 >= L ->
          Spec.specified E b nextTarget d
          = [Some Block.GENESIS_HASH] ++ repeat (Some h) (Z.to_nat d)))
  /\ (let b := Sample.block_with 5000 in
      Spec.is_depth (Block.hash Sample.env b) (BlockUtils.getTargetHeight 8192) 0
      /\ ~ Spec.fast_path Sample.env b 8192 0
      /\ Spec.specified Sample.env b 8192 0
         = [Some Block.GENESIS_HASH;
            Some Block.GENESIS_HASH; Some 21; Some 22; Some 23; Some 24]
      /\ forall fuel,
           Block.nextInterlink Sample.env (S fuel) b 8192
           = Some (BlockInterlink.mk
                     [Some Block.GENESIS_HASH; None; None;
                      Some Block.GENESIS_HASH; Some 21; Some 22; Some 23; Some 24])).
Proof.
  split.
  - intros E b nextTarget d h hn offset L Hdepth Hslow Hstart.
    assert (Hrun : Block.nextInterlink E (S (Z.to_nat d)) b nextTarget
                   = Some (BlockInterlink.mk (Spec.specified E b nextTarget d))).
    { rewrite (nextInterlink_run E _ b nextTarget d)
        by (apply depth_loop_is_depth; [exact Hdepth|lia]).
      destruct ((d =? 0) && _) eqn:Hfast.
      - exfalso. apply Hslow. apply andb_true_iff in Hfast.
        split; [apply Z.eqb_eq, Hfast|apply Z.eqb_eq, Hfast].
      - rewrite rebuilt_specified by exact Hstart. reflexivity. }
    split; [|split].
    + exists (S (Z.to_nat d)). exact Hrun.
    + intros fuel il Hil.
      apply (nextInterlink_returns_unique E b nextTarget); eexists; eassumption.
    + intros Hpast. unfold Spec.specified. fold offset.
      unfold BlockInterlink.length. rewrite entries_at_suffix by exact Hstart.
      rewrite drop_ge by (unfold L, BlockInterlink.length in Hpast; lia).
      rewrite app_nil_r. reflexivity.
  - assert (Hd : Spec.is_depth (Block.hash Sample.env (Sample.block_with 5000))
                               (BlockUtils.getTargetHeight 8192) 0)
      by (apply is_depth_b_correct; vm_compute; reflexivity).
    split; [exact Hd|]. split; [|split].
    + intros [_ Hheight]. vm_compute in Hheight. discriminate Hheight.
    + vm_compute. reflexivity.
    + intros fuel.
      rewrite (nextInterlink_run Sample.env _ _ _ 0)
        by (apply depth_loop_is_depth; [exact Hd|simpl; lia]).
      vm_compute. reflexivity.
Qed.

(** The fifth scenario of the spec: a hash that meets [2^(h-2)] but not
    [2^(h-3)] at the current target has depth 2, and the call yields the
    vector of the specification: the genesis hash, the hash twice and the
    tail from index 3. *)
Example nextInterlink_rebuilds_sample :
  let b := Sample.block_with 200 in
  Spec.is_depth (Block.hash Sample.env b) (BlockUtils.getTargetHeight 1024) 2
  /\ Spec.specified Sample.env b 1024 2
     = [Some Block.GENESIS_HASH; Some 200; Some 200; Some 23; Some 24]
  /\ Block.nextInterlink Sample.env 3 b 1024
     = Some (BlockInterlink.mk (Spec.specified Sample.env b 1024 2)).
Proof.
  split; [apply is_depth_b_correct; vm_compute; reflexivity|].
  split; vm_compute; reflexivity.
Qed.

(** C5. When [nextTarget] is the block's own target and the hash does not
    meet [2^(getTargetHeight(nextTarget) - 1)], [nextInterlink] returns the
    current interlink unchanged, with any fuel for the one test it makes. *)
Theorem nextInterlink_fast_path (E : Env) (b : Block.t) (nextTarget : Z) (fuel : nat) :
  nextTarget = Block.target E b ->
  BlockUtils.isProofOfWork (Block.hash E b)
    (Math.pow2 (BlockUtils.getTargetHeight nextTarget - 1)) = false ->
  Block.nextInterlink E (S fuel) b nextTarget = Some (Block.interlink b).
Proof.
  intros -> Hmiss.
  rewrite (nextInterlink_run E _ b _ 0).
  - rewrite !Z.eqb_refl. reflexivity.
  - simpl. rewrite Hmiss. reflexivity.
Qed.

Lemma nextInterlink_fast_path_witness :
  let b := Sample.block_with 600 in
  1024 = Block.target Sample.env b
  /\ BlockUtils.isProofOfWork (Block.hash Sample.env b)
       (Math.pow2 (BlockUtils.getTargetHeight 1024 - 1)) = false
  /\ Block.nextInterlink Sample.env 1 b 1024 = Some Sample.interlink5.
Proof.
  split; [reflexivity|]. split; [reflexivity|].
  apply (nextInterlink_fast_path Sample.env (Sample.block_with 600) 1024 0);
    reflexivity.
Defined.

(** *** The genesis slot *)







(** *** Reads before the start of the array *)

(** When the start index [d + offset + 1] is negative, the slot after the
    [d] copies of the hash holds [undefined]. *)
Lemma nextInterlink_negative_start (E : Env) (b : Block.t) (nextTarget d : Z) :
  Spec.is_depth (Block.hash E b) (BlockUtils.getTargetHeight nextTarget) d ->
  d + (BlockUtils.getTargetHeight (Block.target E b)
       - BlockUtils.getTargetHeight nextTarget) + 1 < 0 ->
  exists il,
    returns (fun fuel => Block.nextInterlink E fuel b nextTarget) il
    /\ BlockInterlink.hashes il !! S (Z.to_nat d) = Some None.
Proof.
  intros Hdepth Hneg. pose proof Hdepth as (Hd & _).
  eexists. split.
  - exists (S (Z.to_nat d)).
    apply nextInterlink_run, depth_loop_is_depth; [exact Hdepth|lia].
  - destruct (Z.eqb_spec (BlockUtils.getTargetHeight (Block.target E b))
                         (BlockUtils.getTargetHeight nextTarget)) as [Heq|_];
      [lia|].
    rewrite andb_false_r. simpl BlockInterlink.hashes. unfold Spec.rebuilt.
    destruct (entries_negative (BlockInterlink.hashes (Block.interlink b)) _ Hneg)
      as [rest Hrest].
    unfold BlockInterlink.length. rewrite Hrest. simpl.
    induction (Z.to_nat d) as [|n IH]; [reflexivity|exact IH].
Qed.


(** C7 fails on the code. A block at target [2^10] whose hash is 5000, asked
    for the next interlink at target [2^13]: depth 0, offset -3, so the tail
    loop starts at index -2 and pushes the reads at -2 and -1, two
    [undefined], before the five entries. The genesis block of the sample
    collaborators, asked at target [2^242], yields an [undefined] as well. *)
Theorem nextInterlink_reads_before_start :
  let b := Sample.block_with 5000 in
  let il := BlockInterlink.mk
              [Some Block.GENESIS_HASH; None; None;
               Some Block.GENESIS_HASH; Some 21; Some 22; Some 23; Some 24] in
  Block.nextInterlink Sample.env 1 b 8192 = Some il
  /\ ~ Spec.in_bounds_only Sample.env b il
  /\ Block.nextInterlink Sample.env 1 (Block.GENESIS Sample.env) (2 ^ 242)
     = Some (BlockInterlink.mk [Some Block.GENESIS_HASH; None]).
Proof.
  split; [vm_compute; reflexivity|]. split; [|vm_compute; reflexivity].
  intros Hall. unfold Spec.in_bounds_only in Hall.
  rewrite Forall_forall in Hall.
  destruct (Hall None) as [H|[H|(j & Hj & H)]].
  - simpl. set_solver.
  - discriminate H.
  - discriminate H.
  - simpl in Hj.
    do 5 (destruct j as [|j]; [discriminate H|]). lia.
Qed.

End NextInterlinkFacts.

(** ** Block.verify *)

Module VerifyFacts.

Section WithEnv.
Variable E : Env.

Lemma seen_insert (m : gmap Transaction.PublicKey bool) (k k' : Transaction.PublicKey) :
  Block.seen (<[k := true]> m) k' = false <-> k' <> k /\ Block.seen m k' = false.
Proof.
  unfold Block.seen. destruct (decide (k = k')) as [->|Hne].
  - rewrite lookup_insert_eq. simpl. split; [discriminate|intros [? _]; congruence].
  - rewrite lookup_insert_ne by exact Hne. split; [split; congruence|tauto].
Qed.

(** The first loop, started with the keys of [m] already seen: it passes
    when no key of the list is in [m], no key occurs twice, and no
    transaction pays its own sender. *)
Lemma verify_senders_iff (txs : list Transaction.t) :
  forall m : gmap Transaction.PublicKey bool,
    Block.verify_senders E m txs = true
    <-> (forall tx, tx ∈ txs -> Block.seen m (Transaction.senderPubKey tx) = false)
        /\ NoDup (map Transaction.senderPubKey txs)
        /\ Forall (fun tx => Transaction.recipientAddr tx <> getSenderAddr E tx) txs.
Proof.
  induction txs as [|tx rest IH]; intros m.
  - simpl. split; [|reflexivity]. intros _.
    split; [intros tx Htx; inversion Htx|]. split; constructor.
  - simpl Block.verify_senders. simpl map.
    rewrite NoDup_cons, Forall_cons.
    destruct (Block.seen m (Transaction.senderPubKey tx)) eqn:Hseen.
    { split; [discriminate|]. intros (Hfresh & _).
      rewrite Hfresh in Hseen by constructor. discriminate. }
    unfold Address.equals.
    destruct (Z.eqb_spec (Transaction.recipientAddr tx) (getSenderAddr E tx))
      as [Hself|Hother].
    { split; [discriminate|]. intros (_ & _ & Hne & _). contradiction. }
    rewrite IH. split.
    + intros (Hfresh & Hnodup & Hall). split; [|split; [split|split]]; try assumption.
      * intros tx' Htx'. apply elem_of_cons in Htx' as [->|Htx']; [exact Hseen|].
        apply (seen_insert m (Transaction.senderPubKey tx)), Hfresh, Htx'.
      * intros Hin. apply list_elem_of_fmap in Hin as (tx' & Hkey & Htx').
        apply Hfresh, seen_insert in Htx' as [Hne _]. congruence.
    + intros (Hfresh & (Hnotin & Hnodup) & _ & Hall).
      split; [|split; assumption].
      intros tx' Htx'. apply seen_insert. split.
      * intros Hkey. apply Hnotin. apply list_elem_of_fmap. exists tx'. split; [congruence|exact Htx'].
      * apply Hfresh. apply elem_of_cons. right. exact Htx'.
Qed.

Lemma verify_signatures_iff (txs : list Transaction.t) :
  Block.verify_signatures E txs = true
  <-> Forall (fun tx => verifySignature E tx = true) txs.
Proof.
  induction txs as [|tx rest IH]; simpl.
  - split; [constructor|reflexivity].
  - rewrite Forall_cons. destruct (verifySignature E tx); simpl.
    + rewrite IH. tauto.
    + split; [discriminate|intros [? _]; discriminate].
Qed.

Lemma no_shared_sender_NoDup (txs : list Transaction.t) :
  Spec.no_shared_sender txs <-> NoDup (map Transaction.senderPubKey txs).
Proof.
  rewrite NoDup_alt. unfold Spec.no_shared_sender. split.
  - intros H i j k Hi Hj.
    rewrite list_lookup_fmap in Hi, Hj.
    destruct (txs !! i) as [t1|] eqn:H1; [|discriminate].
    destruct (txs !! j) as [t2|] eqn:H2; [|discriminate].
    simpl in Hi, Hj. apply (H i j t1 t2 H1 H2). congruence.
  - intros H i j t1 t2 H1 H2 Hkey.
    apply (H i j (Transaction.senderPubKey t1)); rewrite list_lookup_fmap.
    + rewrite H1. reflexivity.
    + rewrite H2. simpl. congruence.
Qed.

(** [verify] is the conjunction of its checks. *)
Lemma verify_checks (b : Block.t) :
  Block.verify E b
  = negb (Block.serializedSize E b >? BLOCK_SIZE_MAX E)
    && Block.verify_senders E ∅ (BlockBody.transactions (Block.body b))
    && Block.verifyProofOfWork E (Block.header b)
    && Hash.equals (BlockHeader.bodyHash (Block.header b)) (body_hash E (Block.body b))
    && Hash.equals (BlockHeader.interlinkHash (Block.header b))
                   (interlink_hash E (Block.interlink b))
    && Block.verify_signatures E (BlockBody.transactions (Block.body b)).
Proof.
  unfold Block.verify.
  destruct (Block.serializedSize E b >? BLOCK_SIZE_MAX E); [reflexivity|].
  destruct (Block.verify_senders E ∅ _); [|reflexivity].
  destruct (Block.verifyProofOfWork E _); [|reflexivity].
  destruct (Hash.equals (BlockHeader.bodyHash _) _); [|reflexivity].
  destruct (Hash.equals (BlockHeader.interlinkHash _) _); [|reflexivity].
  destruct (Block.verify_signatures E _); reflexivity.
Qed.

Lemma verify_true_iff (b : Block.t) :
  Block.verify E b = true <-> Spec.validation_rules E b.
Proof.
  rewrite verify_checks, !andb_true_iff, negb_true_iff.
  unfold Spec.validation_rules, Hash.equals.
  rewrite verify_senders_iff, verify_signatures_iff, no_shared_sender_NoDup.
  rewrite !Z.eqb_eq, Z.gtb_ltb, Z.ltb_ge.
  split.
  - intros (((((Hsize & (_ & Hnodup & Hself)) & Hpow) & Hbody) & Hil) & Hsig).
    repeat split; assumption.
  - intros (Hsize & Hnodup & Hself & Hpow & Hbody & Hil & Hsig).
    repeat split; try assumption.
Qed.

End WithEnv.

(** C1. [verify()] returns true exactly when the seven rules hold, and false
    exactly when one of them is violated: it is a total function to the
    booleans and a violation is never an exception. *)
Theorem verify_iff (E : Env) (b : Block.t) :
  (Block.verify E b = true <-> Spec.validation_rules E b)
  /\ (Block.verify E b = false <-> ~ Spec.validation_rules E b).
Proof.
  pose proof (verify_true_iff E b) as Htrue. split; [exact Htrue|].
  destruct (Block.verify E b).
  - split; [discriminate|]. intros Hno. exfalso. apply Hno, Htrue. reflexivity.
  - split; [|reflexivity]. intros _ Hrules. apply Htrue in Hrules. discriminate.
Qed.

(** Two transactions of one sender fail validation; telling the senders
    apart passes (under collaborators that accept everything else). *)
Example verify_uniqueness :
  let tx k := Transaction.mk k 5 0 in
  let block txs :=
    Block.mk (BlockHeader.mk 0 (Hash.fromBase64 "47DEQpj8HBSa+/TImW+5JCeuQeRkm5NMpJWZG3hSuFU=")
                (Hash.fromBase64 "Xmju8G32zjPl4m6U/ULB3Nyozs2BkVgX2k9fy5/HeEg=")
                0 520159232 2 0 0)
             (BlockInterlink.mk []) (BlockBody.mk 9 txs) in
  Block.verify Sample.accepting (block [tx 7; tx 7]) = false
  /\ Block.verify Sample.accepting (block [tx 7; tx 8]) = true.
Proof. split; vm_compute; reflexivity. Qed.

End VerifyFacts.

(** ** Block.isSuccessorOf *)

Module SuccessorFacts.
Import Js NextInterlinkFacts.

Section WithEnv.
Variable E : Env.

(** Past the three checks of height, timestamp and prevHash, the call of
    [hash] on the promise throws. *)
Lemma isSuccessorOf_passes (this prevBlock : Block.t) :
  BlockHeader.height (Block.header this)
  = BlockHeader.height (Block.header prevBlock) + 1 ->
  BlockHeader.timestamp (Block.header this)
  >= BlockHeader.timestamp (Block.header prevBlock) ->
  BlockHeader.prevHash (Block.header this) = Block.hash E prevBlock ->
  Block.isSuccessorOf E this prevBlock = Throw (TypeError "hash").
Proof.
  intros Hheight Htime Hprev. unfold Block.isSuccessorOf, Hash.equals.
  rewrite (proj2 (Z.eqb_eq _ _) Hheight). simpl.
  destruct (Z.ltb_spec (BlockHeader.timestamp (Block.header this))
                       (BlockHeader.timestamp (Block.header prevBlock)));
    [lia|].
  rewrite (proj2 (Z.eqb_eq _ _) Hprev). reflexivity.
Qed.

(** A check that fails among the three gives the answer false. *)
Lemma isSuccessorOf_rejects (this prevBlock : Block.t) :
  BlockHeader.height (Block.header this)
  <> BlockHeader.height (Block.header prevBlock) + 1
  \/ BlockHeader.timestamp (Block.header this)
     < BlockHeader.timestamp (Block.header prevBlock)
  \/ BlockHeader.prevHash (Block.header this) <> Block.hash E prevBlock ->
  Block.isSuccessorOf E this prevBlock = Ok false.
Proof.
  intros Hearly. unfold Block.isSuccessorOf, Hash.equals.
  destruct (Z.eqb_spec (BlockHeader.height (Block.header this))
                       (BlockHeader.height (Block.header prevBlock) + 1))
    as [Hheight|Hheight]; simpl; [|reflexivity].
  destruct (Z.ltb_spec (BlockHeader.timestamp (Block.header this))
                       (BlockHeader.timestamp (Block.header prevBlock)))
    as [Htime|Htime]; [reflexivity|].
  destruct (Z.eqb_spec (BlockHeader.prevHash (Block.header this))
                       (Block.hash E prevBlock))
    as [Hprev|Hprev]; simpl; [|reflexivity].
  destruct Hearly as [?|[?|?]]; [contradiction|lia|contradiction].
Qed.

(** One of the two applies. *)
Lemma isSuccessorOf_cases (this prevBlock : Block.t) :
  Block.isSuccessorOf E this prevBlock = Ok false
  \/ Block.isSuccessorOf E this prevBlock = Throw (TypeError "hash").
Proof.
  destruct (Z.eq_dec (BlockHeader.height (Block.header this))
                     (BlockHeader.height (Block.header prevBlock) + 1))
    as [Hheight|Hheight]; [|left; apply isSuccessorOf_rejects; tauto].
  destruct (Z_lt_ge_dec (BlockHeader.timestamp (Block.header this))
                        (BlockHeader.timestamp (Block.header prevBlock)))
    as [Htime|Htime]; [left; apply isSuccessorOf_rejects; tauto|].
  destruct (Z.eq_dec (BlockHeader.prevHash (Block.header this))
                     (Block.hash E prevBlock))
    as [Hprev|Hprev]; [|left; apply isSuccessorOf_rejects; tauto].
  right. apply isSuccessorOf_passes; assumption.
Qed.

End WithEnv.

(** C2 fails on the code. For a child and a parent that meet the four
    conditions, [child.isSuccessorOf(prev)] does not return true: after the
    checks of height, timestamp and prevHash it calls [hash] on the promise
    that [prev.nextInterlink(child.target)] returns, and throws a TypeError.
    No pair of blocks is answered with true. The failing input is the fourth
    scenario of the spec, the minimal child of the genesis block, which meets
    the four conditions. *)
Theorem isSuccessorOf_throws :
  (forall E child prev,
      Spec.succession_rules E child prev ->
      Block.isSuccessorOf E child prev = Throw (TypeError "hash"))
  /\ (forall E child prev, Block.isSuccessorOf E child prev <> Ok true)
  /\ Spec.succession_rules Sample.env Sample.genesis_child (Block.GENESIS Sample.env)
  /\ Block.isSuccessorOf Sample.env Sample.genesis_child (Block.GENESIS Sample.env)
     = Throw (TypeError "hash").
Proof.
  split; [|split; [|split]].
  - intros E child prev (Hheight & Htime & Hprev & _).
    apply isSuccessorOf_passes; assumption.
  - intros E child prev Htrue.
    destruct (isSuccessorOf_cases E child prev) as [H|H];
      rewrite H in Htrue; discriminate Htrue.
  - split; [reflexivity|]. split; [vm_compute; discriminate|].
    split; [vm_compute; reflexivity|].
    exists (BlockInterlink.mk []). split.
    + exists 1%nat. vm_compute. reflexivity.
    + vm_compute. reflexivity.
  - vm_compute. reflexivity.
Qed.

End SuccessorFacts.

(** ** Block.GENESIS *)

Module GenesisFacts.

(** The parts of the genesis block that the constant fixes by itself. *)
Lemma GENESIS_fields (E : Env) :
  let g := Block.GENESIS E in
  BlockHeader.height (Block.header g) = 1
  /\ BlockHeader.prevHash (Block.header g) = 0
  /\ BlockHeader.nBits (Block.header g) = difficultyToCompact E 1
  /\ BlockInterlink.hashes (Block.interlink g) = []
  /\ BlockBody.transactions (Block.body g) = []
  /\ BlockBody.minerAddr (Block.body g)
     = SerialBuffer.be_value
         [145; 233; 36; 15; 65; 82; 35; 152; 46; 220;
          52; 85; 50; 99; 7; 16; 233; 74; 127; 82]
  /\ Block.GENESIS_HASH
     = SerialBuffer.be_value
         [229; 226; 176; 138; 89; 154; 69; 207; 49; 8; 238; 253; 33; 114; 5; 44;
          251; 174; 52; 235; 223; 67; 78; 1; 44; 195; 94; 158; 72; 88; 126; 205].
Proof. repeat split; vm_compute; reflexivity. Qed.

(** What [verify] asks of the genesis block: with no transactions, the size
    limit, the proof of work and the two commitments. *)
Lemma GENESIS_verify_iff (E : Env) :
  let g := Block.GENESIS E in
  Block.verify E g = true
  <-> Block.serializedSize E g <= BLOCK_SIZE_MAX E
      /\ Block.verifyProofOfWork E (Block.header g) = true
      /\ body_hash E (Block.body g)
         = Hash.fromBase64 "Xmju8G32zjPl4m6U/ULB3Nyozs2BkVgX2k9fy5/HeEg="
      /\ interlink_hash E (Block.interlink g)
         = Hash.fromBase64 "47DEQpj8HBSa+/TImW+5JCeuQeRkm5NMpJWZG3hSuFU=".
Proof.
  intros g. rewrite VerifyFacts.verify_true_iff.
  unfold Spec.validation_rules. split.
  - intros (Hsize & _ & _ & Hpow & Hbody & Hil & _).
    repeat split; [exact Hsize|exact Hpow|symmetry; exact Hbody|symmetry; exact Hil].
  - intros (Hsize & Hpow & Hbody & Hil).
    split; [exact Hsize|]. split.
    { intros i j t1 t2 H1. destruct i; discriminate H1. }
    split; [constructor|]. split; [exact Hpow|].
    split; [symmetry; exact Hbody|]. split; [symmetry; exact Hil|constructor].
Qed.

(** The sources at hand do not settle it: the answer turns with the
    collaborators. Where the genesis header hashes to the recorded hash and
    difficulty 1 is the target [2^240], the proof of work is not met. *)
Lemma GENESIS_verify_depends :
  Block.verify Sample.accepting (Block.GENESIS Sample.accepting) = true
  /\ Block.verify Sample.env (Block.GENESIS Sample.env) = false.
Proof. split; vm_compute; reflexivity. Qed.

End GenesisFacts.

(** * Further properties of Block.js and NetAddress.js *)

(** ** Block.nextInterlink: when it returns and what it holds *)

Module NextInterlinkMore.
Import PowFacts LoopFacts NextInterlinkFacts.

(** A positive hash meets [2^k] exactly from its own height on. *)
Lemma isProofOfWork_level (h k : Z) :
  0 < h ->
  BlockUtils.isProofOfWork h (Math.pow2 k) = (Z.log2_up h <=? k).
Proof.
  intros Hh. rewrite isProofOfWork_pow2.
  pose proof (Z.log2_up_nonneg h) as Hlog.
  destruct (Z.leb_spec 0 k) as [Hk|Hk].
  - apply eq_true_iff_eq. rewrite !Z.leb_le. apply Z.log2_up_le_pow2; assumption.
  - destruct (Z.leb_spec h 0); [lia|]. symmetry. apply Z.leb_gt. lia.
Qed.

(** A hash that is not positive meets every level. *)
Lemma isProofOfWork_nonpositive (h k : Z) :
  h <= 0 -> BlockUtils.isProofOfWork h (Math.pow2 k) = true.
Proof.
  intros Hh. rewrite isProofOfWork_pow2.
  destruct (0 <=? k) eqn:Hk; apply Z.leb_le; [|exact Hh].
  assert (0 <= 2 ^ k) by (apply Z.pow_nonneg; lia). lia.
Qed.

Lemma depth_loop_nonpositive (h hn : Z) :
  h <= 0 ->
  forall (fuel : nat) (i depth : Z), Block.depth_loop fuel h hn i depth = None.
Proof.
  intros Hh. induction fuel as [|fuel IH]; intros i depth; [reflexivity|].
  simpl. rewrite isProofOfWork_nonpositive by exact Hh. apply IH.
Qed.

(** The depth of a positive hash is the difference of the two heights,
    or zero when the hash is not below the next target's height. *)
Lemma is_depth_closed (h hn : Z) :
  0 < h -> Spec.is_depth h hn (Z.max 0 (hn - Z.log2_up h)).
Proof.
  intros Hh. apply is_depth_intro; [lia| |].
  - intros i Hi. rewrite isProofOfWork_level by exact Hh. apply Z.leb_le. lia.
  - rewrite isProofOfWork_level by exact Hh. apply Z.leb_gt. lia.
Qed.

Lemma is_depth_unique (h hn d d' : Z) :
  Spec.is_depth h hn d -> Spec.is_depth h hn d' -> d = d'.
Proof.
  intros (Hd & Hmeet & Hmax) (Hd' & Hmeet' & Hmax').
  apply Z.le_antisymm; [apply Hmax'|apply Hmax]; assumption.
Qed.

(** What the tail loop reads from a start index on: [undefined] once for
    each index before the array, then the array from the index on. *)
Lemma entries_padded (hs : list (option Hash.t)) (first : Z) :
  Spec.entries hs first (Z.of_nat (length hs) - 1)
  = repeat None (Z.to_nat (- first)) ++ drop (Z.to_nat first) hs.
Proof.
  destruct (Z.le_gt_cases 0 first) as [Hfirst|Hfirst].
  - rewrite entries_suffix by exact Hfirst.
    replace (Z.to_nat (- first)) with O by lia. reflexivity.
  - replace (Z.to_nat first) with O by lia. rewrite drop_0.
    assert (Hall : map (Js.index hs) (Zseq 0 (length hs)) = hs).
    { pose proof (entries_suffix hs 0 (Z.le_refl 0)) as H.
      unfold Spec.entries in H. rewrite drop_0 in H.
      replace (Z.to_nat (Z.of_nat (length hs) - 1 - 0 + 1)) with (length hs)
        in H by lia.
      exact H. }
    assert (Hgen : forall (k n : nat) (lo : Z),
               lo = - Z.of_nat k ->
               map (Js.index hs) (Zseq lo (k + n))
               = repeat None k ++ map (Js.index hs) (Zseq 0 n)).
    { induction k as [|k IH]; intros n lo Hlo.
      - subst lo. reflexivity.
      - change (S k + n)%nat with (S (k + n)). rewrite Zseq_S. simpl.
        rewrite (IH n (lo + 1)) by lia. f_equal.
        unfold Js.index. destruct (Z.leb_spec 0 lo); [lia|reflexivity]. }
    unfold Spec.entries.
    replace (Z.to_nat (Z.of_nat (length hs) - 1 - first + 1))
      with (Z.to_nat (- first) + length hs)%nat by lia.
    rewrite (Hgen _ _ first) by lia. rewrite Hall. reflexivity.
Qed.

(** X1. For a block with a positive hash, [nextInterlink(nextTarget)] needs
    no search: the depth is [max(0, hn - ceil(log2(hash)))], the number of
    heights by which the hash lies below the next target, and with fuel above
    it the call returns the current interlink on the fast path and otherwise
    the genesis hash, that many copies of the hash, and what the tail loop
    reads from the index [start = depth + offset + 1] on: the current
    interlink from that index, after one [undefined] for each index before
    the array when [start] is negative. *)
Theorem nextInterlink_closed_form (E : Env) (b : Block.t) (nextTarget : Z) (fuel : nat) :
  let h := Block.hash E b in
  let hn := BlockUtils.getTargetHeight nextTarget in
  let h_cur := BlockUtils.getTargetHeight (Block.target E b) in
  let d := Z.max 0 (hn - Z.log2_up h) in
  let start := d + (h_cur - hn) + 1 in
  let current := BlockInterlink.hashes (Block.interlink b) in
  0 < h ->
  (Z.to_nat d < fuel)%nat ->
  Block.nextInterlink E fuel b nextTarget
  = Some (if (d =? 0) && (h_cur =? hn)
          then Block.interlink b
          else BlockInterlink.mk
                 ([Some Block.GENESIS_HASH] ++ repeat (Some h) (Z.to_nat d)
                  ++ repeat None (Z.to_nat (- start))
                  ++ drop (Z.to_nat start) current)).
Proof.
  intros h hn h_cur d start current Hh Hfuel.
  rewrite (nextInterlink_run E fuel b nextTarget d)
    by (apply depth_loop_is_depth; [apply is_depth_closed, Hh|exact Hfuel]).
  unfold Spec.rebuilt, BlockInterlink.length. rewrite entries_padded.
  reflexivity.
Qed.

Lemma nextInterlink_closed_form_witness :
  0 < Block.hash Sample.env (Sample.block_with 5000)
  /\ (Z.to_nat (Z.max 0 (BlockUtils.getTargetHeight 8192 - Z.log2_up 5000)) < 1)%nat
  /\ Block.nextInterlink Sample.env 1 (Sample.block_with 5000) 8192
     = Some (BlockInterlink.mk
               [Some Block.GENESIS_HASH; None; None;
                Some Block.GENESIS_HASH; Some 21; Some 22; Some 23; Some 24]).
Proof.
  split; [reflexivity|]. split; [vm_compute; lia|].
  apply (nextInterlink_closed_form Sample.env (Sample.block_with 5000) 8192 1);
    [reflexivity|vm_compute; lia].
Defined.

(** X2. [nextInterlink] returns exactly for the blocks whose hash is
    positive: a hash of zero meets every target [2^k], also the fractional
    ones, and the [while] loop never ends. *)
Theorem nextInterlink_returns_iff (E : Env) (b : Block.t) (nextTarget : Z) :
  (exists il, returns (fun fuel => Block.nextInterlink E fuel b nextTarget) il)
  <-> 0 < Block.hash E b.
Proof.
  split.
  - intros (il & fuel & Hrun).
    destruct (Z.lt_ge_cases 0 (Block.hash E b)) as [|Hle]; [assumption|].
    unfold Block.nextInterlink in Hrun.
    rewrite depth_loop_nonpositive in Hrun by lia. discriminate.
  - intros Hh. destruct (nextInterlink_total E b nextTarget Hh) as [il Hil].
    exists il. eexists. exact Hil.
Qed.





End NextInterlinkMore.

(** ** Block.isSuccessorOf: its outcomes *)

Module SuccessorMore.
Import Js SuccessorFacts.

Lemma early_reject_dec (E : Env) (this prevBlock : Block.t) :
  Chain.early_reject E this prevBlock \/ ~ Chain.early_reject E this prevBlock.
Proof.
  unfold Chain.early_reject.
  destruct (Z.eq_dec (BlockHeader.height (Block.header this))
                     (BlockHeader.height (Block.header prevBlock) + 1));
    destruct (Z.lt_ge_cases (BlockHeader.timestamp (Block.header this))
                            (BlockHeader.timestamp (Block.header prevBlock)));
    destruct (Z.eq_dec (BlockHeader.prevHash (Block.header this))
                       (Block.hash E prevBlock)); try tauto.
  right. intros [?|[?|?]]; [contradiction|lia|contradiction].
Qed.

(** X5. [isSuccessorOf] has two outcomes. It answers false exactly when one
    of its first three checks fails (height, timestamp, prevHash). In every
    other case it throws the TypeError of the call of [hash] on a promise,
    whatever the interlinks, the targets and the interlinkHash of the two
    blocks are. It never answers true. *)
Theorem isSuccessorOf_outcomes (E : Env) (child prev : Block.t) :
  (Block.isSuccessorOf E child prev = Ok false
   <-> Chain.early_reject E child prev)
  /\ (Block.isSuccessorOf E child prev = Throw (TypeError "hash")
      <-> ~ Chain.early_reject E child prev)
  /\ Block.isSuccessorOf E child prev <> Ok true.
Proof.
  destruct (early_reject_dec E child prev) as [Hearly|Hlate].
  - rewrite (isSuccessorOf_rejects E child prev Hearly).
    split; [tauto|]. split; [|discriminate].
    split; [discriminate|contradiction].
  - assert (Hrun : Block.isSuccessorOf E child prev = Throw (TypeError "hash")).
    { unfold Chain.early_reject in Hlate.
      apply isSuccessorOf_passes.
      - destruct (Z.eq_dec (BlockHeader.height (Block.header child))
                           (BlockHeader.height (Block.header prev) + 1));
          [assumption|tauto].
      - destruct (Z.lt_ge_cases (BlockHeader.timestamp (Block.header child))
                                (BlockHeader.timestamp (Block.header prev)));
          [tauto|lia].
      - destruct (Z.eq_dec (BlockHeader.prevHash (Block.header child))
                           (Block.hash E prev)); [assumption|tauto]. }
    rewrite Hrun. split; [|split; [tauto|discriminate]].
    split; [discriminate|contradiction].
Qed.

End SuccessorMore.

(** ** Block.verify: the warnings *)

Module VerifyLog.
Import VerifyFacts.

Section WithEnv.
Variable E : Env.

(** The first loop: same outcome as without the log; nothing logged on
    success, and on failure one warning, which is true of the list. *)
Lemma verify_senders_log (txs : list Transaction.t) :
  forall (m : gmap Transaction.PublicKey bool) (ok : bool) (log : list string),
    BlockLog.verify_senders E m txs = (ok, log) ->
    ok = Block.verify_senders E m txs
    /\ if ok then log = []
       else (log = ["Invalid block - more than one transaction per sender"%string]
             /\ ~ ((forall tx, tx ∈ txs ->
                               Block.seen m (Transaction.senderPubKey tx) = false)
                   /\ NoDup (map Transaction.senderPubKey txs)))
            \/ (log = ["Invalid block - sender and recipient coincide"%string]
                /\ exists tx, tx ∈ txs
                              /\ Transaction.recipientAddr tx = getSenderAddr E tx).
Proof.
  induction txs as [|tx rest IH]; intros m ok log Hrun; simpl in Hrun |- *.
  - injection Hrun as <- <-. split; reflexivity.
  - destruct (Block.seen m (Transaction.senderPubKey tx)) eqn:Hseen.
    { injection Hrun as <- <-. split; [reflexivity|]. left. split; [reflexivity|].
      intros [Hfresh _]. rewrite Hfresh in Hseen by constructor. discriminate. }
    unfold Address.equals in *.
    destruct (Z.eqb_spec (Transaction.recipientAddr tx) (getSenderAddr E tx))
      as [Hself|Hother].
    { injection Hrun as <- <-. split; [reflexivity|]. right. split; [reflexivity|].
      exists tx. split; [constructor|exact Hself]. }
    destruct (IH _ _ _ Hrun) as [Hok Hlog]. split; [exact Hok|].
    destruct ok; [exact Hlog|].
    destruct Hlog as [[-> Hdup]|[-> (tx' & Htx' & Hpays)]].
    + left. split; [reflexivity|]. intros [Hfresh Hnodup]. apply Hdup.
      apply NoDup_cons in Hnodup as [Hnotin Hnodup]. split; [|exact Hnodup].
      intros tx' Htx'. apply seen_insert. split.
      * intros Hkey. apply Hnotin, list_elem_of_fmap. exists tx'.
        split; [congruence|exact Htx'].
      * apply Hfresh, elem_of_cons. right. exact Htx'.
    + right. split; [reflexivity|]. exists tx'. split; [|exact Hpays].
      apply elem_of_cons. right. exact Htx'.
Qed.

Lemma verify_signatures_log (txs : list Transaction.t) :
  forall (ok : bool) (log : list string),
    BlockLog.verify_signatures E txs = (ok, log) ->
    ok = Block.verify_signatures E txs
    /\ if ok then log = []
       else log = ["Invalid block - invalid transaction signature"%string]
            /\ exists tx, tx ∈ txs /\ verifySignature E tx = false.
Proof.
  induction txs as [|tx rest IH]; intros ok log Hrun; simpl in Hrun |- *.
  - injection Hrun as <- <-. split; reflexivity.
  - destruct (verifySignature E tx) eqn:Hsig; simpl in Hrun |- *.
    + destruct (IH _ _ Hrun) as [Hok Hlog]. split; [exact Hok|].
      destruct ok; [exact Hlog|]. destruct Hlog as [-> (tx' & Htx' & Hbad)].
      split; [reflexivity|]. exists tx'. split; [|exact Hbad].
      apply elem_of_cons. right. exact Htx'.
    + injection Hrun as <- <-. split; [reflexivity|]. split; [reflexivity|].
      exists tx. split; [constructor|exact Hsig].
Qed.

End WithEnv.

(** X8. [verify] logs a warning exactly when it returns false, then exactly
    one, and the warning is true of the block: the rule that it names is one
    that the block breaks (the size limit exceeded, two transactions of one
    sender, a transaction that pays its own sender, the proof of work, the
    body or the interlink commitment, a signature that does not verify). *)
Theorem verify_warning (E : Env) (b : Block.t) :
  fst (BlockLog.verify E b) = Block.verify E b
  /\ match snd (BlockLog.verify E b) with
     | [] => Block.verify E b = true
     | [warning] => Block.verify E b = false /\ BlockLog.reports E b warning
     | _ => False
     end.
Proof.
  unfold BlockLog.verify, Block.verify, BlockLog.reports, Hash.equals.
  destruct (Z.gtb_spec (Block.serializedSize E b) (BLOCK_SIZE_MAX E)) as [Hsize|_].
  { simpl. split; [reflexivity|]. split; [reflexivity|]. left. split; [reflexivity|lia]. }
  destruct (BlockLog.verify_senders E ∅ _) as [ok log] eqn:Hsenders.
  destruct (verify_senders_log E _ _ _ _ Hsenders) as [<- Hlog].
  destruct ok; simpl.
  2:{ destruct Hlog as [[-> Hdup]|[-> Hself]]; simpl.
      - split; [reflexivity|]. split; [reflexivity|].
        right. left. split; [reflexivity|]. intros Hno. apply Hdup.
        split; [reflexivity|]. apply no_shared_sender_NoDup, Hno.
      - split; [reflexivity|]. split; [reflexivity|].
        right. right. left. split; [reflexivity|exact Hself]. }
  subst log. simpl.
  destruct (Block.verifyProofOfWork E (Block.header b)) eqn:Hpow; simpl.
  2:{ split; [reflexivity|]. split; [reflexivity|].
      do 3 right. left. split; reflexivity. }
  destruct (Z.eqb_spec (BlockHeader.bodyHash (Block.header b))
                       (body_hash E (Block.body b))) as [_|Hbody]; simpl.
  2:{ split; [reflexivity|]. split; [reflexivity|].
      do 4 right. left. split; [reflexivity|exact Hbody]. }
  destruct (Z.eqb_spec (BlockHeader.interlinkHash (Block.header b))
                       (interlink_hash E (Block.interlink b))) as [_|Hil]; simpl.
  2:{ split; [reflexivity|]. split; [reflexivity|].
      do 5 right. left. split; [reflexivity|exact Hil]. }
  destruct (BlockLog.verify_signatures E _) as [ok' log'] eqn:Hsigs.
  destruct (verify_signatures_log E _ _ _ Hsigs) as [<- Hlog'].
  destruct ok'; simpl.
  - subst log'. split; reflexivity.
  - destruct Hlog' as [-> Hbad]. split; [reflexivity|]. split; [reflexivity|].
    do 6 right. split; [reflexivity|exact Hbad].
Qed.

End VerifyLog.

(** ** Block.serialize, Block.unserialize, Block.equals *)

Module WireFacts.
Import Js SerialBuffer BufferFacts BlockWire.

(** A write into a gap of its own length replaces the gap. *)
Lemma write_at (pre gap post data : list Z) (rp : nat) :
  length gap = length data ->
  write data {| bytes := pre ++ gap ++ post; readPos := rp; writePos := length pre |}
  = (Ok tt, {| bytes := pre ++ data ++ post; readPos := rp;
               writePos := (length pre + length data)%nat |}).
Proof.
  intros Hlen. unfold write. simpl.
  destruct (Nat.leb_spec (length pre + length data) (length (pre ++ gap ++ post)))
    as [_|Hlt]; [|rewrite !length_app in Hlt; lia].
  do 2 f_equal.
  rewrite take_app_length. f_equal. f_equal.
  rewrite <- Hlen, <- length_app, app_assoc. apply drop_app_length.
Qed.

(** A buffer holds what is read at its read position. *)
Lemma slice_at (pre x post : list Z) :
  take (length x) (drop (length pre) (pre ++ x ++ post)) = x.
Proof. rewrite drop_app_length. apply take_app_length. Qed.

Lemma slice_at_pos (pre x post : list Z) (n : nat) :
  n = length pre -> take (length x) (drop n (pre ++ x ++ post)) = x.
Proof. intros ->. apply slice_at. Qed.

(** A read of the bytes at the read position. *)
Lemma read_slice (data : list Z) (s : t) :
  (0 < length data)%nat ->
  take (length data) (drop (readPos s) (bytes s)) = data ->
  read (length data) s = (Ok data, advance (length data) s).
Proof.
  intros Hpos Hslice. unfold read.
  assert (Hroom : (readPos s + length data <= length (bytes s))%nat).
  { apply (f_equal length) in Hslice.
    rewrite length_take, length_drop in Hslice. lia. }
  destruct (Nat.leb_spec (readPos s + length data) (length (bytes s))); [|lia].
  rewrite Hslice. reflexivity.
Qed.

Section Parts.
Variables (E : Env) (P : Parts).

(** The three writes, into a gap of their total length. *)
Lemma serialize_at (b : Block.t) (eh ei eb pre gap post : list Z) (rp : nat) :
  writes_bytes (header_serialize P) (Block.header b) eh ->
  writes_bytes (interlink_serialize P) (Block.interlink b) ei ->
  writes_bytes (body_serialize P) (Block.body b) eb ->
  length gap = (length eh + length ei + length eb)%nat ->
  (header_serialize P (Block.header b);;
   interlink_serialize P (Block.interlink b);;
   body_serialize P (Block.body b))
    {| bytes := pre ++ gap ++ post; readPos := rp; writePos := length pre |}
  = (Ok tt, {| bytes := pre ++ (eh ++ ei ++ eb) ++ post; readPos := rp;
               writePos := (length pre + (length eh + length ei + length eb))%nat |}).
Proof.
  intros Hh Hi Hb Hgap.
  set (ga := take (length eh) gap).
  set (gb := take (length ei) (drop (length eh) gap)).
  set (gc := drop (length eh + length ei) gap).
  assert (Hsplit : gap = ga ++ gb ++ gc).
  { unfold ga, gb, gc. rewrite <- drop_drop, !take_drop. reflexivity. }
  assert (Hga : length ga = length eh) by (unfold ga; rewrite length_take; lia).
  assert (Hgb : length gb = length ei)
    by (unfold gb; rewrite length_take, length_drop; lia).
  assert (Hgc : length gc = length eb) by (unfold gc; rewrite length_drop; lia).
  rewrite Hsplit. rewrite bind_run.
  rewrite Hh by (simpl; rewrite !length_app; lia).
  rewrite <- !app_assoc.
  rewrite (write_at pre ga (gb ++ gc ++ post) eh rp Hga).
  rewrite bind_run.
  rewrite Hi by (simpl; rewrite !length_app; lia).
  replace (length pre + length eh)%nat with (length (pre ++ eh))
    by (rewrite length_app; reflexivity).
  rewrite (app_assoc pre eh).
  rewrite (write_at (pre ++ eh) gb (gc ++ post) ei rp Hgb).
  rewrite Hb by (simpl; rewrite !length_app; lia).
  replace (length (pre ++ eh) + length ei)%nat with (length ((pre ++ eh) ++ ei))
    by (rewrite !length_app; reflexivity).
  rewrite (app_assoc (pre ++ eh) ei).
  rewrite (write_at ((pre ++ eh) ++ ei) gc post eb rp Hgc).
  do 2 f_equal.
  - rewrite <- !app_assoc. reflexivity.
  - rewrite !length_app. lia.
Qed.

(** The three reads, from a buffer that holds the three wire forms. *)
Lemma unserialize_at (b : Block.t) (eh ei eb pre post : list Z) (wp : nat) :
  reads_back (header_unserialize P) (Block.header b) eh ->
  reads_back (interlink_unserialize P) (Block.interlink b) ei ->
  reads_back (body_unserialize P) (Block.body b) eb ->
  unserialize P {| bytes := pre ++ (eh ++ ei ++ eb) ++ post;
                   readPos := length pre; writePos := wp |}
  = (Ok b, {| bytes := pre ++ (eh ++ ei ++ eb) ++ post;
              readPos := (length pre + (length eh + length ei + length eb))%nat;
              writePos := wp |}).
Proof.
  intros Hh Hi Hb. unfold unserialize.
  set (B := pre ++ (eh ++ ei ++ eb) ++ post).
  assert (B1 : B = pre ++ eh ++ (ei ++ eb ++ post))
    by (unfold B; rewrite <- !app_assoc; reflexivity).
  assert (B2 : B = (pre ++ eh) ++ ei ++ (eb ++ post))
    by (unfold B; rewrite <- !app_assoc; reflexivity).
  assert (B3 : B = (pre ++ eh ++ ei) ++ eb ++ post)
    by (unfold B; rewrite <- !app_assoc; reflexivity).
  rewrite bind_run, Hh by (simpl; rewrite B1; apply slice_at).
  rewrite bind_run, Hi
    by (simpl; rewrite B2; apply slice_at_pos; rewrite length_app; reflexivity).
  rewrite bind_run, Hb
    by (simpl; rewrite B3; apply slice_at_pos; rewrite !length_app; lia).
  simpl. destruct b as [h il bd]. simpl. unfold advance. simpl.
  do 2 f_equal. lia.
Qed.

End Parts.

(** The toy parts have the wire forms that the sample block needs. *)
Lemma sample_writes :
  writes_bytes (header_serialize WireSample.parts)
               (Block.header WireSample.block) [0; 0; 0; 7]
  /\ writes_bytes (interlink_serialize WireSample.parts)
                  (Block.interlink WireSample.block) [0]
  /\ writes_bytes (body_serialize WireSample.parts)
                  (Block.body WireSample.block) [0; 0].
Proof. repeat split; intros s _; reflexivity. Qed.

Lemma sample_reads :
  reads_back (header_unserialize WireSample.parts)
             (Block.header WireSample.block) [0; 0; 0; 7]
  /\ reads_back (interlink_unserialize WireSample.parts)
                (Block.interlink WireSample.block) [0]
  /\ reads_back (body_unserialize WireSample.parts)
                (Block.body WireSample.block) [0; 0].
Proof.
  repeat split; intros s Hs;
    unfold header_unserialize, interlink_unserialize, body_unserialize,
      WireSample.parts;
    rewrite bind_run; unfold readUint32, readUint8, readUint16, SerialBuffer.bind.
  - change 4%nat with (length [0; 0; 0; 7]).
    rewrite (read_slice _ s) by (first [exact Hs | simpl; lia]). reflexivity.
  - change 1%nat with (length [0]).
    rewrite (read_slice _ s) by (first [exact Hs | simpl; lia]). reflexivity.
  - change 2%nat with (length [0; 0]).
    rewrite (read_slice _ s) by (first [exact Hs | simpl; lia]). reflexivity.
Qed.

(** X9. [serialize] lays a block out as header, interlink, body. Given that
    each part's serializer writes a byte string at the write position, and
    that each part's [serializedSize] is the length of its byte string,
    [serialize()] returns a buffer that holds exactly the three strings in
    this order and is full, with [serializedSize] bytes; and [serialize(buf)]
    into a buffer with room puts the same bytes at the write position of
    [buf] and leaves the bytes before and after them as they were. *)
Theorem serialize_layout (E : Env) (P : Parts) (b : Block.t) (eh ei eb : list Z) :
  writes_bytes (header_serialize P) (Block.header b) eh ->
  writes_bytes (interlink_serialize P) (Block.interlink b) ei ->
  writes_bytes (body_serialize P) (Block.body b) eb ->
  header_serializedSize E (Block.header b) = Z.of_nat (length eh) ->
  interlink_serializedSize E (Block.interlink b) = Z.of_nat (length ei) ->
  body_serializedSize E (Block.body b) = Z.of_nat (length eb) ->
  let n := (length eh + length ei + length eb)%nat in
  serialize E P None b
  = (Ok tt, {| bytes := eh ++ ei ++ eb; readPos := 0; writePos := n |})
  /\ Z.of_nat n = Block.serializedSize E b
  /\ forall s, (writePos s + n <= length (bytes s))%nat ->
       serialize E P (Some s) b
       = (Ok tt, {| bytes := take (writePos s) (bytes s) ++ (eh ++ ei ++ eb)
                             ++ drop (writePos s + n) (bytes s);
                    readPos := readPos s;
                    writePos := (writePos s + n)%nat |}).
Proof.
  intros Hh Hi Hb Sh Si Sb n.
  assert (Hsize : Z.of_nat n = Block.serializedSize E b)
    by (unfold Block.serializedSize, n; lia).
  split; [|split; [exact Hsize|]].
  - unfold serialize. simpl default. unfold SerialBuffer.new.
    rewrite <- Hsize, Nat2Z.id.
    pose proof (serialize_at P b eh ei eb [] (repeat 0 n) [] 0 Hh Hi Hb) as Hrun.
    simpl in Hrun. rewrite !app_nil_r in Hrun. rewrite Hrun.
    + reflexivity.
    + apply repeat_length.
  - clear Hsize. subst n.
    intros [B rp wp] Hroom. simpl in Hroom. unfold serialize. simpl default.
    set (n := (length eh + length ei + length eb)%nat) in *.
    pose proof (serialize_at P b eh ei eb (take wp B) (take n (drop wp B))
                  (drop (wp + n) B) rp Hh Hi Hb) as Hrun.
    assert (Hpre : length (take wp B) = wp) by (rewrite length_take; lia).
    assert (Hgap : length (take n (drop wp B)) = n)
      by (rewrite length_take, length_drop; lia).
    assert (Hsplit : take wp B ++ take n (drop wp B) ++ drop (wp + n) B = B)
      by (rewrite <- drop_drop, !take_drop; reflexivity).
    specialize (Hrun Hgap). rewrite Hpre, Hsplit in Hrun. exact Hrun.
Qed.

Lemma serialize_layout_witness :
  serialize WireSample.env WireSample.parts None WireSample.block
  = (Ok tt, {| bytes := [0; 0; 0; 7; 0; 0; 0]; readPos := 0; writePos := 7 |})
  /\ 7 = Block.serializedSize WireSample.env WireSample.block.
Proof.
  destruct sample_writes as (Hh & Hi & Hb).
  destruct (serialize_layout WireSample.env WireSample.parts WireSample.block
              [0; 0; 0; 7] [0] [0; 0] Hh Hi Hb eq_refl eq_refl eq_refl)
    as (Hrun & Hsize & _).
  split; [exact Hrun|exact Hsize].
Defined.

(** X10. [Block.unserialize(block.serialize())] is the block. Given in
    addition that each part's unserializer reads the part back from its byte
    string, [unserialize] applied to the buffer that [serialize()] returns
    yields the block itself, the constructor's checks passing, and it leaves
    the read position at the write position: the whole buffer is consumed. *)
Theorem unserialize_serialize (E : Env) (P : Parts) (b : Block.t) (eh ei eb : list Z) :
  writes_bytes (header_serialize P) (Block.header b) eh ->
  writes_bytes (interlink_serialize P) (Block.interlink b) ei ->
  writes_bytes (body_serialize P) (Block.body b) eb ->
  reads_back (header_unserialize P) (Block.header b) eh ->
  reads_back (interlink_unserialize P) (Block.interlink b) ei ->
  reads_back (body_unserialize P) (Block.body b) eb ->
  header_serializedSize E (Block.header b) = Z.of_nat (length eh) ->
  interlink_serializedSize E (Block.interlink b) = Z.of_nat (length ei) ->
  body_serializedSize E (Block.body b) = Z.of_nat (length eb) ->
  exists buf,
    serialize E P None b = (Ok tt, buf)
    /\ unserialize P buf
       = (Ok b, {| bytes := bytes buf; readPos := writePos buf;
                   writePos := writePos buf |})
    /\ Z.of_nat (writePos buf) = Block.serializedSize E b.
Proof.
  intros Wh Wi Wb Rh Ri Rb Sh Si Sb.
  set (n := (length eh + length ei + length eb)%nat).
  assert (Hsize : Z.of_nat n = Block.serializedSize E b)
    by (unfold Block.serializedSize, n; lia).
  exists {| bytes := eh ++ ei ++ eb; readPos := 0; writePos := n |}.
  split; [|split].
  - unfold serialize. simpl default. unfold SerialBuffer.new.
    rewrite <- Hsize, Nat2Z.id.
    pose proof (serialize_at P b eh ei eb [] (repeat 0 n) [] 0 Wh Wi Wb) as Hrun.
    simpl in Hrun. rewrite !app_nil_r in Hrun. apply Hrun, repeat_length.
  - pose proof (unserialize_at P b eh ei eb [] [] n Rh Ri Rb) as Hread.
    simpl in Hread. rewrite !app_nil_r in Hread. exact Hread.
  - exact Hsize.
Qed.

Lemma unserialize_serialize_witness :
  exists buf,
    serialize WireSample.env WireSample.parts None WireSample.block = (Ok tt, buf)
    /\ fst (unserialize WireSample.parts buf) = Ok WireSample.block.
Proof.
  destruct sample_writes as (Wh & Wi & Wb). destruct sample_reads as (Rh & Ri & Rb).
  destruct (unserialize_serialize WireSample.env WireSample.parts WireSample.block
              [0; 0; 0; 7] [0] [0; 0] Wh Wi Wb Rh Ri Rb eq_refl eq_refl eq_refl)
    as (buf & Hser & Hunser & _).
  exists buf. split; [exact Hser|]. rewrite Hunser. reflexivity.
Defined.

(** X11. [equals] compares blocks part by part: when the [equals] of each
    part holds exactly between equal parts, [a.equals(b)] holds exactly when
    [a] and [b] are the same block, and a value that is not a block is never
    equal to one. *)
Theorem equals_iff (Q : PartEquals) (a b : Block.t) :
  (forall x y, header_equals Q x y = true <-> x = y) ->
  (forall x y, interlink_equals Q x y = true <-> x = y) ->
  (forall x y, body_equals Q x y = true <-> x = y) ->
  (equals Q a (Instance b) = true <-> a = b)
  /\ equals Q a NotBlock = false.
Proof.
  intros Hh Hi Hb. split; [|reflexivity].
  unfold equals. rewrite !andb_true_iff, Hh, Hi, Hb.
  destruct a, b; simpl. split; [intros [[-> ->] ->]; reflexivity|].
  intros [= -> -> ->]. auto.
Qed.

Lemma equals_iff_witness :
  equals WireSample.part_equals WireSample.block (Instance WireSample.block) = true.
Proof.
  apply (equals_iff WireSample.part_equals WireSample.block WireSample.block);
    try (intros x y; apply bool_decide_eq_true). reflexivity.
Defined.

End WireFacts.

(** ** NetAddress.equals and NetAddress.toString *)

Module NetAddressMore.
Import NetAddress NetAddressText.

(** The address of the spec's second scenario: the timestamp prints with
    the 16 digits that identify it. *)
Example toString_sample :
  toString Sample.address
  = Some "NetAddress{services=1, timestamp=72623859790382850, host=example.com, port=8443, signalId=42}"%string.
Proof. vm_compute. reflexivity. Qed.

(** X12. [equals] is an equivalence on addresses: every address equals
    itself, and the relation is symmetric and transitive. *)
Theorem equals_equivalence :
  (forall a, equals a (Instance a) = true)
  /\ (forall a b, equals a (Instance b) = equals b (Instance a))
  /\ (forall a b c, equals a (Instance b) = true -> equals b (Instance c) = true ->
                    equals a (Instance c) = true).
Proof.
  split; [|split].
  - intros a. unfold equals. rewrite !Z.eqb_refl, String.eqb_refl. reflexivity.
  - intros a b. unfold equals.
    rewrite (Z.eqb_sym (services a)), (Z.eqb_sym (port a)), (Z.eqb_sym (signalId a)),
      (String.eqb_sym (host a)). reflexivity.
  - intros a b c. unfold equals.
    rewrite !andb_true_iff, !Z.eqb_eq, !String.eqb_eq.
    intros (((-> & ->) & ->) & ->) (((-> & ->) & ->) & ->). auto.
Qed.

(** *** Reading a printed address back *)



















End NetAddressMore.

(** ** NetAddress.serialize and NetAddress.unserialize: the bytes *)

Module NetAddressWire.
Import Js SerialBuffer BufferFacts NetAddress WireFacts.

(** A write at the end of what has been written so far. *)
Lemma write_into (pre rest data : list Z) (rp : nat) :
  (length data <= length rest)%nat ->
  write data {| bytes := pre ++ rest; readPos := rp; writePos := length pre |}
  = (Ok tt, {| bytes := (pre ++ data) ++ drop (length data) rest; readPos := rp;
               writePos := length (pre ++ data) |}).
Proof.
  intros Hlen.
  rewrite <- (take_drop (length data) rest) at 1.
  rewrite write_at by (rewrite length_take; lia).
  rewrite <- app_assoc, length_app. reflexivity.
Qed.

Lemma fold_be_value (l : list Z) :
  forall acc, fold_left (fun a b => a * 256 + b) l acc
              = acc * 256 ^ Z.of_nat (length l) + be_value l.
Proof.
  unfold be_value. induction l as [|x l IH]; intros acc.
  - simpl. lia.
  - simpl fold_left. rewrite IH, (IH (0 * 256 + x)).
    replace (Z.of_nat (length (x :: l))) with (Z.succ (Z.of_nat (length l)))
      by (simpl; lia).
    rewrite Z.pow_succ_r by lia. ring.
Qed.

(** Reading big-endian what was written big-endian: the value modulo the
    width. *)
Lemma be_value_be_bytes (k : nat) (v : Z) :
  be_value (be_bytes k v) = v mod 256 ^ Z.of_nat k.
Proof.
  induction k as [|k IH].
  - simpl. rewrite Z.mod_1_r. reflexivity.
  - simpl be_bytes. unfold be_value. simpl fold_left.
    rewrite fold_be_value, IH, length_be_bytes.
    replace (Z.of_nat (S k)) with (Z.succ (Z.of_nat k)) by lia.
    rewrite Z.pow_succ_r by lia.
    rewrite (Z.mul_comm 256), Z.rem_mul_r by lia. ring.
Qed.

Lemma be_value_in_range (k : nat) (v : Z) :
  0 <= v < 256 ^ Z.of_nat k -> be_value (be_bytes k v) = v.
Proof. intros Hv. rewrite be_value_be_bytes. apply Z.mod_small, Hv. Qed.

Lemma bytes_string_string_bytes (s : string) : bytes_string (string_bytes s) = s.
Proof.
  unfold bytes_string, string_bytes. rewrite map_map.
  rewrite <- (string_of_list_ascii_of_string s) at 2. f_equal.
  rewrite <- (map_id (list_ascii_of_string s)) at 2.
  apply map_ext. intros c. rewrite N2Z.id. apply ascii_N_embedding.
Qed.

Lemma length_head_bytes (a : t) :
  length (NetAddressBytes.head_bytes a) = (15 + String.length (host a))%nat.
Proof.
  unfold NetAddressBytes.head_bytes. rewrite !length_app, !length_be_bytes, length_string_bytes. lia.
Qed.

(** The first four writes on a fresh buffer of [serializedSize] bytes. *)
Lemma serialize_head (a : t) {A} (k : M A) :
  Js.is_ascii (host a) = true ->
  (String.length (host a) <= 255)%nat ->
  (writeUint32 (services a);;
   writeUint64 (timestamp a);;
   writeVarLenString (host a);;
   writeUint16 (port a);;
   k) (SerialBuffer.new (serializedSize a))
  = k {| bytes := NetAddressBytes.head_bytes a ++ repeat 0 4; readPos := 0;
         writePos := length (NetAddressBytes.head_bytes a) |}.
Proof.
  intros Hascii Hlen. unfold SerialBuffer.new.
  apply string_length_ascii in Hascii.
  set (n := String.length (host a)) in *.
  replace (Z.to_nat (serializedSize a)) with (19 + n)%nat
    by (unfold serializedSize; rewrite Hascii; lia).
  change (repeat 0 (19 + n)) with ([] ++ repeat 0 (19 + n)).
  change 0%nat with (length (@nil Z)) at 2.
  assert (Hrest : forall m j : nat, drop j (repeat 0 m) = repeat 0 (m - j)).
  { intros m j. revert m. induction j as [|j IH]; intros m.
    - rewrite Nat.sub_0_r. reflexivity.
    - destruct m; [reflexivity|]. simpl. apply IH. }
  rewrite bind_run. unfold writeUint32 at 1.
  rewrite write_into by (rewrite length_be_bytes, repeat_length; lia).
  rewrite bind_run. unfold writeUint64.
  rewrite write_into
    by (rewrite length_drop, !length_be_bytes, repeat_length; lia).
  rewrite bind_run. unfold writeVarLenString. fold n.
  destruct (Nat.leb_spec n 255); [|lia].
  unfold SerialBuffer.bind, writeUint8.
  rewrite write_into
    by (rewrite !length_drop, !length_be_bytes, repeat_length; lia).
  rewrite write_into
    by (rewrite !length_drop, !length_be_bytes, length_string_bytes, repeat_length;
        fold n; lia).
  rewrite bind_run. unfold writeUint16.
  rewrite write_into
    by (rewrite !length_drop, !length_be_bytes, length_string_bytes, repeat_length;
        fold n; lia).
  rewrite !Hrest, !length_be_bytes, length_string_bytes. fold n.
  replace (19 + n - 4 - 8 - 1 - n - 2)%nat with 4%nat by lia.
  unfold NetAddressBytes.head_bytes. fold n. simpl ([] ++ _). rewrite <- !app_assoc.
  reflexivity.
Qed.

(** X14. The bytes of [serialize()], in any scope: for an address whose
    numeric fields hold numbers and whose host is in ASCII, of at most 255
    characters, the buffer has [serializedSize] bytes and begins with
    services (4 bytes, big-endian), timestamp (8), the length of the host
    (1), the host, and the port (2). Where [signalId] is bound its four bytes
    follow and the call returns; where it is not, the call throws with the
    last four bytes still zero and the write position before them. *)
Theorem serialize_bytes (sc : Scope) (a : t) :
  NetAddressBytes.numbers a = true ->
  Js.is_ascii (host a) = true ->
  (String.length (host a) <= 255)%nat ->
  let n := String.length (host a) in
  let buf := snd (serialize sc None a) in
  take (15 + n) (bytes buf) = NetAddressBytes.head_bytes a
  /\ Z.of_nat (length (bytes buf)) = serializedSize a
  /\ length (bytes buf) = (19 + n)%nat
  /\ match global_signalId sc with
     | Some sid =>
         fst (serialize sc None a) = Ok tt
         /\ drop (15 + n) (bytes buf) = be_bytes 4 sid
         /\ writePos buf = (19 + n)%nat
     | None =>
         fst (serialize sc None a) = Throw (ReferenceError "signalId")
         /\ drop (15 + n) (bytes buf) = [0; 0; 0; 0]
         /\ writePos buf = (15 + n)%nat
     end.
Proof.
  intros _ Hascii Hlen n buf. subst buf. unfold serialize. simpl default.
  rewrite (serialize_head a _ Hascii Hlen).
  assert (Hsize : serializedSize a = Z.of_nat (19 + n))
    by (unfold serializedSize; rewrite (string_length_ascii _ Hascii); fold n; lia).
  rewrite Hsize.
  pose proof (length_head_bytes a) as Hhead. fold n in Hhead.
  set (head := NetAddressBytes.head_bytes a) in *.
  destruct (global_signalId sc) as [sid|]; unfold resolve.
  - rewrite bind_run. unfold mret, SerialBuffer_ret, SerialBuffer.ret, writeUint32.
    pose proof (length_be_bytes 4 sid) as Hsid.
    set (last := be_bytes 4 sid) in *.
    rewrite write_into by (rewrite Hsid; reflexivity).
    cbn [fst snd bytes writePos].
    rewrite Hsid. change (drop 4 (repeat 0 4)) with (@nil Z). rewrite app_nil_r.
    rewrite <- Hhead.
    rewrite take_app_length, drop_app_length, !length_app, Hsid.
    repeat split; lia.
  - rewrite bind_run. unfold SerialBuffer.throw. cbn [fst snd bytes writePos].
    rewrite <- Hhead.
    rewrite take_app_length, drop_app_length, !length_app, repeat_length.
    simpl repeat. repeat split; lia.
Qed.

Lemma serialize_bytes_witness :
  NetAddressBytes.numbers Sample.address = true
  /\ Js.is_ascii (host Sample.address) = true
  /\ (String.length (host Sample.address) <= 255)%nat
  /\ take 26 (bytes (snd (serialize repository_scope None Sample.address)))
     = [0; 0; 0; 1; 1; 2; 3; 4; 5; 6; 7; 0; 11;
        101; 120; 97; 109; 112; 108; 101; 46; 99; 111; 109; 32; 251].
Proof.
  split; [vm_compute; reflexivity|]. split; [vm_compute; reflexivity|].
  split; [vm_compute; lia|].
  apply (serialize_bytes repository_scope Sample.address);
    [vm_compute; reflexivity|vm_compute; reflexivity|vm_compute; lia].
Defined.

(** *** Reading a record *)

(** A read of bytes that the buffer holds at its read position. *)
Lemma read_mid (p x q : list Z) (s : SerialBuffer.t) :
  bytes s = p ++ x ++ q ->
  readPos s = length p ->
  read (length x) s = (Ok x, BlockWire.advance (length x) s).
Proof.
  intros HB Hrp. unfold read. rewrite HB, Hrp.
  destruct (Nat.leb_spec (length p + length x) (length (p ++ x ++ q)))
    as [_|Hlt]; [|rewrite !length_app in Hlt; lia].
  rewrite slice_at. unfold BlockWire.advance. rewrite HB, Hrp. reflexivity.
Qed.

(** [unserialize] on a buffer that holds a record at its read position:
    the five reads succeed and move the read position past the record; what
    comes back depends on [ipAddress] alone. *)
(** The two side conditions of [read_mid] after some reads. *)
Ltac side HB Hrp :=
  unfold BlockWire.advance; cbn [bytes readPos];
  rewrite ?HB, ?Hrp, ?length_app, <- ?app_assoc;
  first [reflexivity | cbn [length]; lia].

Lemma unserialize_record (sc : Scope) (s : SerialBuffer.t)
      (pre b1 b2 hb b4 b5 post : list Z) :
  length b1 = 4%nat -> length b2 = 8%nat -> (length hb <= 255)%nat ->
  length b4 = 2%nat -> length b5 = 4%nat ->
  utf8_valid hb = true ->
  bytes s = pre ++ b1 ++ b2 ++ [Z.of_nat (length hb)] ++ hb ++ b4 ++ b5 ++ post ->
  readPos s = length pre ->
  unserialize sc s
  = (match global_ipAddress sc with
     | Some ipAddress =>
         Ok (NetAddress.mk (be_value b1) (be_value b2) ipAddress
                           (be_value b4) (be_value b5))
     | None => Throw (ReferenceError "ipAddress")
     end,
     BlockWire.advance (19 + length hb) s).
Proof.
  intros L1 L2 Lh L4 L5 Hutf HB Hrp. unfold unserialize.
  set (lenb := [Z.of_nat (length hb)]) in *.
  (* services *)
  rewrite bind_run. unfold readUint32 at 1, SerialBuffer.bind.
  rewrite <- L1 at 1.
  rewrite (read_mid pre b1 (b2 ++ lenb ++ hb ++ b4 ++ b5 ++ post) s HB Hrp).
  unfold ret. set (s1 := BlockWire.advance (length b1) s).
  (* timestamp *)
  rewrite bind_run. unfold readUint64, SerialBuffer.bind.
  rewrite <- L2 at 1.
  rewrite (read_mid (pre ++ b1) b2 (lenb ++ hb ++ b4 ++ b5 ++ post) s1)
    by (subst s1; side HB Hrp).
  unfold ret. set (s2 := BlockWire.advance (length b2) s1).
  (* host *)
  rewrite bind_run. unfold readVarLenString, readUint8, SerialBuffer.bind.
  change 1%nat with (length lenb).
  rewrite (read_mid (pre ++ b1 ++ b2) lenb (hb ++ b4 ++ b5 ++ post) s2)
    by (subst s2 s1; side HB Hrp).
  unfold ret. set (s3 := BlockWire.advance (length lenb) s2).
  replace (Z.to_nat (be_value lenb)) with (length hb)
    by (subst lenb; unfold be_value; simpl; lia).
  rewrite (read_mid (pre ++ b1 ++ b2 ++ lenb) hb (b4 ++ b5 ++ post) s3)
    by (subst s3 s2 s1; side HB Hrp).
  rewrite Hutf. unfold ret. set (s4 := BlockWire.advance (length hb) s3).
  (* port *)
  rewrite bind_run. unfold readUint16, SerialBuffer.bind.
  rewrite <- L4 at 1.
  rewrite (read_mid (pre ++ b1 ++ b2 ++ lenb ++ hb) b4 (b5 ++ post) s4)
    by (subst s4 s3 s2 s1; side HB Hrp).
  unfold ret. set (s5 := BlockWire.advance (length b4) s4).
  (* signalId *)
  rewrite bind_run. unfold readUint32, SerialBuffer.bind.
  rewrite <- L5 at 1.
  rewrite (read_mid (pre ++ b1 ++ b2 ++ lenb ++ hb ++ b4) b5 post s5)
    by (subst s5 s4 s3 s2 s1; side HB Hrp).
  unfold ret. rewrite bind_run.
  assert (Hs : BlockWire.advance (length b5) s5 = BlockWire.advance (19 + length hb) s).
  { subst s5 s4 s3 s2 s1. unfold BlockWire.advance. simpl.
    rewrite L1, L2, L4, L5. f_equal. lia. }
  rewrite Hs. unfold resolve.
  destruct (global_ipAddress sc); reflexivity.
Qed.



(** X16. A round trip in a scope that binds both names. For an address
    whose numbers fit their fields (the timestamp a number below [2^64])
    and whose host is in ASCII, of at most 255 characters,
    [NetAddress.unserialize(a.serialize())] returns services, timestamp and
    port as they were, and as host and signalId the values that the scope
    binds to [ipAddress] and [signalId], not those of the address. *)
Theorem roundtrip_in_scope (a : t) (ipAddress : string) (sid : Z) :
  Js.is_ascii (host a) = true ->
  (String.length (host a) <= 255)%nat ->
  0 <= services a < 2 ^ 32 ->
  0 <= timestamp a < 2 ^ 64 ->
  Js.is_number (timestamp a) = true ->
  0 <= port a < 2 ^ 16 ->
  0 <= sid < 2 ^ 32 ->
  roundtrip {| global_ipAddress := Some ipAddress; global_signalId := Some sid |} a
  = Ok (NetAddress.mk (services a) (timestamp a) ipAddress (port a) sid).
Proof.
  intros Hascii Hlen Hs Ht _ Hp Hsid. unfold roundtrip, serialize. simpl default.
  rewrite (serialize_head a _ Hascii Hlen). cbn [global_signalId]. unfold resolve.
  rewrite bind_run. unfold mret, SerialBuffer_ret, SerialBuffer.ret, writeUint32.
  rewrite write_into by (rewrite length_be_bytes; reflexivity).
  rewrite length_be_bytes. change (drop 4 (repeat 0 4)) with (@nil Z).
  erewrite (unserialize_record _ _ [] (be_bytes 4 (services a))
              (be_bytes 8 (timestamp a)) (string_bytes (host a))
              (be_bytes 2 (port a)) (be_bytes 4 sid) []).
  - cbn [fst global_ipAddress].
    rewrite !be_value_in_range by (simpl Z.of_nat; lia). reflexivity.
  - apply length_be_bytes.
  - apply length_be_bytes.
  - rewrite length_string_bytes. exact Hlen.
  - apply length_be_bytes.
  - apply length_be_bytes.
  - apply utf8_valid_ascii, Hascii.
  - cbn [bytes]. unfold NetAddressBytes.head_bytes.
    rewrite length_string_bytes.
    assert (Hbyte : be_bytes 1 (Z.of_nat (String.length (host a)))
                    = [Z.of_nat (String.length (host a))]).
    { simpl. rewrite Z.div_1_r, Z.mod_small by lia. reflexivity. }
    rewrite Hbyte, <- !app_assoc. reflexivity.
  - reflexivity.
Qed.

Lemma roundtrip_in_scope_witness :
  roundtrip {| global_ipAddress := Some "10.0.0.1"%string;
               global_signalId := Some 7 |} Sample.address
  = Ok (NetAddress.mk 1 72623859790382848 "10.0.0.1" 8443 7).
Proof.
  apply (roundtrip_in_scope Sample.address "10.0.0.1" 7);
    first [reflexivity | vm_compute; lia
          | vm_compute; split; [discriminate|reflexivity]].
Defined.

End NetAddressWire.
